(** * hack/push-to-quay.py: pushing the upgrade graph to Quay labels

    A shallow embedding of [hack/push-to-quay.py] and the properties of
    its loader ([load_nodes], [load_edges]), of its reconciler
    ([sync_node]) and of its registry calls ([get_labels],
    [get_release_metadata], [delete_label], [post_label]).

    Python dictionaries are [gmap]s, Python sets are [gset]s, exceptions
    are values of [exn], and the code that talks to the registry runs in
    a state-and-error monad over the registry's state for one manifest. *)

From Stdlib Require Import String Ascii List.
From stdpp Require Import base option list sorting gmap sets strings.

Local Open Scope string_scope.
Local Open Scope list_scope.

(** ** Python strings *)

Module Py.

(** [s.split(sep)] for a one-character separator: every occurrence
    splits, and the empty string splits into one empty field. *)
Fixpoint split (sep : ascii) (s : string) : list string :=
  match s with
  | EmptyString => [EmptyString]
  | String c s' =>
      if Ascii.eqb c sep then EmptyString :: split sep s'
      else match split sep s' with
           | [] => [String c EmptyString]
           | w :: ws => String c w :: ws
           end
  end.

(** [s.split(sep, 1)]: at most one split, at the first separator. *)
Fixpoint split1 (sep : ascii) (s : string) : list string :=
  match s with
  | EmptyString => [EmptyString]
  | String c s' =>
      if Ascii.eqb c sep then [EmptyString; s']
      else match split1 sep s' with
           | [] => [String c EmptyString]
           | w :: ws => String c w :: ws
           end
  end.

(** [sep.join(l)]. *)
Fixpoint join (sep : string) (l : list string) : string :=
  match l with
  | [] => ""
  | [x] => x
  | x :: rest => x +:+ sep +:+ join sep rest
  end.

(** [s.startswith(p)] and [s.endswith(p)]. *)
Definition startswith (s p : string) : bool := String.prefix p s.

Definition endswith (s p : string) : bool :=
  String.prefix (String.rev p) (String.rev s).

(** [s[n:]]. *)
Fixpoint slice_from (n : nat) (s : string) : string :=
  match n, s with
  | O, _ => s
  | S n', String _ s' => slice_from n' s'
  | S _, EmptyString => EmptyString
  end.

(** [bool(s)]: a string is true when it is not empty. *)
Definition truthy (s : string) : bool :=
  match s with EmptyString => false | String _ _ => true end.

(** The order [sorted] uses on strings: code points, lexicographically. *)
Definition str_le (a b : string) : Prop := String.leb a b = true.

#[global] Instance str_le_dec a b : Decision (str_le a b).
Proof. unfold str_le. apply _. Defined.

#[global] Instance str_le_total : Total str_le.
Proof. intros a b. apply String.leb_total. Qed.

#[global] Instance str_le_antisym : AntiSymm (=) str_le.
Proof. intros a b. apply String.leb_antisym. Qed.

(** [sorted(l)] for a list of strings, and [sorted(s)] for a set. *)
Definition sorted (l : list string) : list string := merge_sort str_le l.

Definition sorted_set (s : gset string) : list string := sorted (elements s).

(** [set(l)]. *)
Definition set (l : list string) : gset string := list_to_set l.

(** [os.path.basename(p)]: what follows the last slash. *)
Definition basename (p : string) : string := List.last (split "/" p) "".

(** [os.path.join(a, b)] on a POSIX system. *)
Definition path_join (a b : string) : string :=
  if startswith b "/" then b
  else if orb (negb (truthy a)) (endswith a "/") then a +:+ b
  else a +:+ "/" +:+ b.

End Py.

Example split_ex : Py.split "," "a,b,,c" = ["a"; "b"; ""; "c"]. Proof. reflexivity. Qed.
Example split_empty_ex : Py.split "," "" = [""]. Proof. reflexivity. Qed.
Example split1_ex : Py.split1 "@" "quay.io/o/r@sha256:ab@c" = ["quay.io/o/r"; "sha256:ab@c"].
Proof. reflexivity. Qed.
Example join_ex : Py.join "," ["a"; "b"; "c"] = "a,b,c". Proof. reflexivity. Qed.
Example sorted_ex : Py.sorted_set {[ "stable"; "fast" ]} = ["fast"; "stable"].
Proof. vm_compute. reflexivity. Qed.
Example basename_ex : Py.basename "./channels/stable-4.1" = "stable-4.1".
Proof. reflexivity. Qed.
Example endswith_ex : Py.endswith "4.1.0.json" ".json" = true. Proof. reflexivity. Qed.
Example path_join_ex : Py.path_join "./edges" "a.json" = "./edges/a.json".
Proof. reflexivity. Qed.

(** ** Exceptions *)

(** The format string of each [ValueError] the script raises, with the
    arguments it is formatted with; the last two are raised by Python
    itself, when a tuple assignment finds too few values and when
    [json.load] is not wrapped. *)
Inductive message :=
| failed_to_load_JSON (path : string)
| duplicate_edges
| edge_channels_differ (edge_channels node_channels : list string)
| non_Quay_pullspec (pullspec : string)
| no_release_metadata (version : string)
| not_enough_values_to_unpack
| json_decode_error.

(** [KeyError] is what indexing a dictionary with an absent key raises,
    and what [TarFile.extractfile] raises for an absent member. *)
Inductive exn :=
| ValueError (msg : message)
| KeyError (key : string).

(** Code that returns or raises. *)
Definition result (A : Type) : Type := exn + A.

Definition raise {A} (e : exn) : result A := inl e.
Definition ok {A} (a : A) : result A := inr a.

Definition rbind {A B} (m : result A) (k : A → result B) : result B :=
  match m with
  | inl e => inl e
  | inr a => k a
  end.

Notation "'try!' x := m 'in' k" := (rbind m (fun x => k))
  (at level 10, x pattern, m at level 100, k at level 200).

(** [d[k]] on a dictionary with string keys. *)
Definition getitem {V} (d : gmap string V) (k : string) : result V :=
  match d !! k with
  | Some v => ok v
  | None => raise (KeyError k)
  end.

(** ** The graph: nodes and edges *)

Definition release_channels : string := "io.openshift.upgrades.graph.release.channels".
Definition previous_add : string := "io.openshift.upgrades.graph.previous.add".
Definition previous_remove : string := "io.openshift.upgrades.graph.previous.remove".
Definition next_add : string := "io.openshift.upgrades.graph.next.add".
Definition next_remove : string := "io.openshift.upgrades.graph.next.remove".

(** A node dictionary: [version], [payload] and the optional [metadata]
    come from the node's JSON file, [channels] is set by [load_nodes] and
    [previous] is absent until [load_edges] adds a predecessor. *)
Record Node := {
  version : string;
  payload : string;
  metadata : option (gmap string string);
  channels : gset string;
  previous : option (gset string);
}.

(** The JSON object of a node file. *)
Record NodeDoc := {
  doc_version : string;
  doc_payload : string;
  doc_metadata : option (gmap string string);
}.

(** The JSON object of an edge file; [from] is a keyword of Rocq. *)
Record Edge := {
  from_ : string;
  to_ : string;
  edge_channels : list string;
}.

(** A file of a walked directory: its name, and what [json.load] makes of
    it ([None] when [json.load] raises [ValueError]). A document that
    parses is taken to be an object with the fields the script reads (the
    schema of the node and edge files); what the script does with another
    document, such as the [KeyError] of [node['version']] on an object
    without a version, is outside this type. *)
Record File (A : Type) := {
  filename : string;
  json : option A;
}.
Arguments filename {A} _.
Arguments json {A} _.

(** What [os.walk] yields: each directory with the files in it. *)
Definition Walk (A : Type) : Type := list (string * list (File A)).

Definition set_channels (n : Node) (c : gset string) : Node :=
  {| version := version n; payload := payload n; metadata := metadata n;
     channels := c; previous := previous n |}.

Definition set_metadata (n : Node) (m : gmap string string) : Node :=
  {| version := version n; payload := payload n; metadata := Some m;
     channels := channels n; previous := previous n |}.

Definition set_previous (n : Node) (p : gset string) : Node :=
  {| version := version n; payload := payload n; metadata := metadata n;
     channels := channels n; previous := Some p |}.

(** ** load_edges *)

Abbreviation EdgeKey := (string * string)%type.

(** The body of the inner loop of [load_edges], after the file is parsed. *)
Definition load_edge (edge : Edge)
    (st : gmap EdgeKey Edge * gmap string Node)
    : result (gmap EdgeKey Edge * gmap string Node) :=
  let '(edges, nodes) := st in
  let edge_key := (from_ edge, to_ edge) in
  if decide (is_Some (edges !! edge_key)) then
    raise (ValueError duplicate_edges)
  else
    let edges := <[edge_key := edge]> edges in
    try! from_node := getitem nodes (from_ edge) in
    try! to_node := getitem nodes (to_ edge) in
    let node_channels := channels from_node ∩ channels to_node in
    if decide (Py.set (edge_channels edge) ≠ node_channels) then
      raise (ValueError (edge_channels_differ
               (Py.sorted (edge_channels edge)) (Py.sorted_set node_channels)))
    else
      let to_node' :=
        match previous to_node with
        | Some p => set_previous to_node (p ∪ {[from_ edge]})
        | None => set_previous to_node {[from_ edge]}
        end in
      ok (edges, <[to_ edge := to_node']> nodes).

(** One file of the walk: skipped unless it is a [.json] file, parsed,
    then handed to the loop body. *)
Definition load_edge_file (root : string) (f : File Edge)
    (st : gmap EdgeKey Edge * gmap string Node)
    : result (gmap EdgeKey Edge * gmap string Node) :=
  if negb (Py.endswith (filename f) ".json") then ok st
  else
    let path := Py.path_join root (filename f) in
    match json f with
    | None => raise (ValueError (failed_to_load_JSON path))
    | Some edge => load_edge edge st
    end.

Fixpoint load_edges_files (root : string) (files : list (File Edge))
    (st : gmap EdgeKey Edge * gmap string Node)
    : result (gmap EdgeKey Edge * gmap string Node) :=
  match files with
  | [] => ok st
  | f :: files' =>
      try! st' := load_edge_file root f st in
      load_edges_files root files' st'
  end.

Fixpoint load_edges_walk (walk : Walk Edge)
    (st : gmap EdgeKey Edge * gmap string Node)
    : result (gmap EdgeKey Edge * gmap string Node) :=
  match walk with
  | [] => ok st
  | (root, files) :: walk' =>
      try! st' := load_edges_files root files st in
      load_edges_walk walk' st'
  end.

Definition load_edges (directory : Walk Edge) (nodes : gmap string Node)
    : result (gmap string Node) :=
  try! st := load_edges_walk directory (∅, nodes) in
  ok (snd st).

(** ** load_nodes *)

Definition load_node_file (root : string) (f : File NodeDoc)
    (nodes : gmap string Node) : result (gmap string Node) :=
  let channel := Py.basename root in
  if negb (Py.endswith (filename f) ".json") then ok nodes
  else
    let path := Py.path_join root (filename f) in
    match json f with
    | None => raise (ValueError (failed_to_load_JSON path))
    | Some node =>
        match nodes !! doc_version node with
        | Some previous_node =>
            ok (<[doc_version node :=
                    set_channels previous_node (channels previous_node ∪ {[channel]})]> nodes)
        | None =>
            ok (<[doc_version node :=
                    {| version := doc_version node; payload := doc_payload node;
                       metadata := doc_metadata node; channels := {[channel]};
                       previous := None |}]> nodes)
        end
    end.

Fixpoint load_nodes_files (root : string) (files : list (File NodeDoc))
    (nodes : gmap string Node) : result (gmap string Node) :=
  match files with
  | [] => ok nodes
  | f :: files' =>
      try! nodes' := load_node_file root f nodes in
      load_nodes_files root files' nodes'
  end.

Fixpoint load_nodes_walk (walk : Walk NodeDoc) (nodes : gmap string Node)
    : result (gmap string Node) :=
  match walk with
  | [] => ok nodes
  | (root, files) :: walk' =>
      try! nodes' := load_nodes_files root files nodes in
      load_nodes_walk walk' nodes'
  end.

(** The second loop of [load_nodes], on one node. *)
Definition add_channels_metadata (node : Node) : Node :=
  let md := match metadata node with Some md => md | None => ∅ end in
  set_metadata node
    (<[release_channels := Py.join "," (Py.sorted_set (channels node))]> md).

Definition load_nodes (directory : Walk NodeDoc) : result (gmap string Node) :=
  try! nodes := load_nodes_walk directory ∅ in
  ok (add_channels_metadata <$> nodes).

(** ** The registry *)

(** A label of a manifest, as the label API lists it and as [post_label]
    sends it. *)
Record Label := {
  media_type : string;
  key : string;
  value : string;
}.

(** The JSON object of [release-manifests/release-metadata]; the script
    reads its [previous] list, which may be absent. *)
Record ReleaseMetadata := {
  meta_previous : option (list string);
}.

(** A layer of the manifest: its digest, and the members of the gzipped
    archive the blob holds, each with what [json.load] makes of it. *)
Record Layer := {
  blob_digest : string;
  blob : gmap string (option ReleaseMetadata);
}.

(** The requests that change the registry. [DELETE] names the URI and the
    label the URI ends in. *)
Inductive request :=
| DELETE (uri : string) (label : string) (bearer : string)
| POST (uri : string) (body : Label) (bearer : string).

(** The lines the script prints: the format string, with its arguments. *)
Inductive printed :=
| print_call (version verb uri : string)
| print_label_mismatch (version channels desired : string)
| print_changing (version what : string) (current want : list string)
| print_had_previous_additions (version : string)
| print_replacing (version previous_remove : string).

(** The world [sync_node] runs in: the labels and the layers the registry
    holds for the node's manifest, what was printed, and the requests the
    registry received that change it. *)
Record World := {
  labels : list Label;
  layers : list Layer;
  stdout : list printed;
  sent : list request;
}.

Definition M (A : Type) : Type := World → result A * World.

Definition ret {A} (a : A) : M A := λ w, (ok a, w).

Definition bind {A B} (m : M A) (k : A → M B) : M B :=
  λ w, match m w with
       | (inl e, w') => (inl e, w')
       | (inr a, w') => k a w'
       end.

Notation "'do!' x := m 'in' k" := (bind m (fun x => k))
  (at level 10, x pattern, m at level 100, k at level 200).

Definition lift {A} (r : result A) : M A := λ w, (r, w).

Definition print (line : printed) : M unit :=
  λ w, (ok tt, {| labels := labels w; layers := layers w;
                  stdout := stdout w ++ [line]; sent := sent w |}).

(** What the registry does with a request: a [DELETE] removes the label,
    a [POST] adds one. *)
Definition apply_request (r : request) (ls : list Label) : list Label :=
  match r with
  | DELETE _ label _ => filter (λ l, key l ≠ label) ls
  | POST _ body _ => ls ++ [body]
  end.

(** [urlopen(request)] for a request that changes the registry. *)
Definition urlopen (r : request) : M unit :=
  λ w, (ok tt, {| labels := apply_request r (labels w); layers := layers w;
                  stdout := stdout w; sent := sent w ++ [r] |}).

(** [not token]: no token, or an empty one. *)
Definition bearer (token : option string) : option string :=
  match token with
  | Some t => if Py.truthy t then Some t else None
  | None => None
  end.

Definition manifest_uri (node : Node) : result string :=
  let pullspec := payload node in
  match Py.split1 "@" pullspec with
  | [name; digest] =>
      let prefix := "quay.io/" in
      if negb (Py.startswith name prefix) then
        raise (ValueError (non_Quay_pullspec pullspec))
      else
        let name := Py.slice_from (String.length prefix) name in
        ok ("https://quay.io/api/v1/repository/" +:+ name +:+ "/manifest/" +:+ digest)
  | _ => raise (ValueError not_enough_values_to_unpack)
  end.

(** [{label['key']: label for label in data['labels']}] *)
Definition labels_dict (ls : list Label) : gmap string Label :=
  foldl (λ d label, <[key label := label]> d) ∅ ls.

Definition get_labels (node : Node) : M (gmap string Label) :=
  do! _ := lift (manifest_uri node) in
  λ w, (ok (labels_dict (labels w)), w).

Definition delete_label (node : Node) (label : string) (token : option string)
    : M unit :=
  do! base := lift (manifest_uri node) in
  let uri := base +:+ "/labels/" +:+ label in
  do! _ := print (print_call (version node) "delete" uri) in
  match bearer token with
  | None => ret tt
  | Some t => urlopen (DELETE uri label t)
  end.

Definition post_label (node : Node) (label : Label) (token : option string)
    : M unit :=
  do! base := lift (manifest_uri node) in
  let uri := base +:+ "/labels" in
  do! _ := print (print_call (version node) "post" uri) in
  match bearer token with
  | None => ret tt
  | Some t => urlopen (POST uri label t)
  end.

(** A [for] loop whose body returns from the function, raises, or goes on
    to the next element; [after] is the code that follows the loop. *)
Inductive control (A : Type) :=
| Return (a : A)
| Continue.
Arguments Return {A} _.
Arguments Continue {A}.

Fixpoint for_each {X A} (body : X → result (control A)) (xs : list X)
    (after : result A) : result A :=
  match xs with
  | [] => after
  | x :: xs' =>
      match body x with
      | inl e => inl e
      | inr (Return a) => inr a
      | inr Continue => for_each body xs' after
      end
  end.

Definition release_metadata_path : string := "release-manifests/release-metadata".

(** The body of the loop of [get_release_metadata]. *)
Definition read_layer (node : Node) (layer : Layer)
    : result (control ReleaseMetadata) :=
  let pullspec := payload node in
  let name := List.hd "" (Py.split1 "@" pullspec) in
  let prefix := "quay.io/" in
  if negb (Py.startswith name prefix) then
    raise (ValueError (non_Quay_pullspec pullspec))
  else
    match blob layer !! release_metadata_path with
    | None => raise (KeyError release_metadata_path)
    | Some None => raise (ValueError json_decode_error)
    | Some (Some meta) => ok (Return meta)
    end.

(** The loop of [get_release_metadata] over [reversed(data['layers'])] and
    the [raise] that follows it. *)
Definition search_layers (node : Node) (data_layers : list Layer)
    : result ReleaseMetadata :=
  for_each (read_layer node) (reverse data_layers)
    (raise (ValueError (no_release_metadata (version node)))).

Definition get_release_metadata (node : Node) : M ReleaseMetadata :=
  do! _ := lift (manifest_uri node) in
  λ w, (search_layers node (layers w), w).

(** ** sync_node *)

(** [labels.get(k, {}).get('value', '')] *)
Definition label_value (labels : gmap string Label) (k : string) : string :=
  match labels !! k with
  | Some l => value l
  | None => ""
  end.

(** [node['metadata']['io.openshift.upgrades.graph.release.channels']] *)
Definition desired_channels (node : Node) : result string :=
  match metadata node with
  | None => raise (KeyError "metadata")
  | Some md => getitem md release_channels
  end.

(** [set(version for version in value.split(',') if version)] *)
Definition parse_versions (v : string) : gset string :=
  Py.set (filter (λ version, Py.truthy version) (Py.split "," v)).

Definition text_label (k v : string) : Label :=
  {| media_type := "text/plain"; key := k; value := v |}.

(** The channels label: the first block of [sync_node]. [channels] is
    [None] after the script assigns it [None]. *)
Definition sync_channels (node : Node) (labels : gmap string Label)
    (token : option string) : M unit :=
  let channels := label_value labels release_channels in
  do! mismatch :=
    (if Py.truthy channels then
       do! desired := lift (desired_channels node) in
       ret (negb (String.eqb channels desired))
     else ret false) in
  do! channels :=
    (if mismatch : bool then
       do! desired := lift (desired_channels node) in
       do! _ := print (print_label_mismatch (version node) channels desired) in
       do! _ := delete_label node release_channels token in
       ret None
     else ret (Some channels)) in
  match channels with
  | Some (String _ _) => ret tt
  | _ =>
      do! desired := lift (desired_channels node) in
      post_label node (text_label release_channels desired) token
  end.

(** The retired labels: the loop over [next.add] and [next.remove]. *)
Fixpoint purge_next (node : Node) (labels : gmap string Label)
    (token : option string) (keys : list string) : M unit :=
  match keys with
  | [] => ret tt
  | k :: keys' =>
      let label := "io.openshift.upgrades.graph." +:+ k in
      do! _ := (if decide (is_Some (labels !! label))
                then delete_label node label token else ret tt) in
      purge_next node labels token keys'
  end.

(** The code the script has twice, for [previous.remove] and for
    [previous.add]: compare the set the label holds with the wanted one,
    and replace the label when they differ. *)
Definition change_previous (node : Node) (labels : gmap string Label)
    (token : option string) (what label : string) (want : gset string)
    : M unit :=
  let current := parse_versions (label_value labels label) in
  if decide (current ≠ want) then
    do! _ := print (print_changing (version node) what
                      (Py.sorted_set current) (Py.sorted_set want)) in
    do! _ := (if decide (is_Some (labels !! label))
              then delete_label node label token else ret tt) in
    if decide (want ≠ ∅) then
      post_label node
        (text_label label (Py.join "," (Py.sorted_set want))) token
    else ret tt
  else ret tt.

(** [meta.get('previous', set())] *)
Definition published_previous (meta : ReleaseMetadata) : list string :=
  default [] (meta_previous meta).

(** The predecessor labels: the last [if] of [sync_node]. *)
Definition sync_previous (node : Node) (labels : gmap string Label)
    (token : option string) : M unit :=
  let declared := default ∅ (previous node) in
  if decide (declared ≠ ∅) then
    do! meta := get_release_metadata node in
    let previous := Py.set (published_previous meta) in
    let want_removed := previous ∖ declared in
    do! _ := change_previous node labels token "previous.remove"
               previous_remove want_removed in
    let want_added := declared ∖ previous in
    change_previous node labels token "previous.add" previous_add want_added
  else
    do! _ :=
      (if decide (is_Some (labels !! previous_add)) then
         do! _ := print (print_had_previous_additions (version node)) in
         delete_label node previous_add token
       else ret tt) in
    let previous_remove_value := label_value labels previous_remove in
    if negb (String.eqb previous_remove_value "*") then
      do! meta := get_release_metadata node in
      match published_previous meta with
      | [] => ret tt
      | _ :: _ =>
          do! _ := print (print_replacing (version node) previous_remove_value) in
          do! _ := (if decide (is_Some (labels !! previous_remove))
                    then delete_label node previous_remove token else ret tt) in
          post_label node (text_label previous_remove "*") token
      end
    else ret tt.

Definition sync_node (node : Node) (token : option string) : M unit :=
  do! labels := get_labels node in
  do! _ := sync_channels node labels token in
  do! _ := purge_next node labels token ["next.add"; "next.remove"] in
  sync_previous node labels token.

(** A run of [sync_node]: what it returns or raises, and the world it
    leaves. *)
Definition run {A} (m : M A) (w : World) : result A * World := m w.

(** The requests a run added. *)
Definition new_requests (w w' : World) : list request :=
  drop (length (sent w)) (sent w').

(** * Properties of the loader *)

(** The files of a walk, in the order the two nested loops visit them. *)
Definition walk_files {A} (walk : Walk A) : list (string * File A) :=
  walk ≫= λ d, (λ f, (fst d, f)) <$> snd d.

(** The two loops of [load_edges] as one loop over [walk_files]. *)
Fixpoint load_edges_seq (fs : list (string * File Edge))
    (st : gmap EdgeKey Edge * gmap string Node)
    : result (gmap EdgeKey Edge * gmap string Node) :=
  match fs with
  | [] => ok st
  | (root, f) :: fs' =>
      try! st' := load_edge_file root f st in
      load_edges_seq fs' st'
  end.

(** [f] is a file [load_edges] reads the edge [e] from. *)
Definition edge_file (f : File Edge) (e : Edge) : Prop :=
  Py.endswith (filename f) ".json" = true ∧ json f = Some e.

Definition edge_key (e : Edge) : EdgeKey := (from_ e, to_ e).

Lemma rbind_inr {A B} (m : result A) (k : A → result B) b :
  rbind m k = inr b → ∃ a, m = inr a ∧ k a = inr b.
Proof. destruct m as [x|a]; simpl; [discriminate|]. eauto. Qed.

Lemma load_edges_seq_app fs1 fs2 st :
  load_edges_seq (fs1 ++ fs2) st
  = rbind (load_edges_seq fs1 st) (load_edges_seq fs2).
Proof.
  revert st. induction fs1 as [|[root f] fs1 IH]; intros st; simpl; [done|].
  destruct (load_edge_file root f st) as [x|st']; simpl; [done|]. apply IH.
Qed.

Lemma load_edges_files_seq root files st :
  load_edges_files root files st
  = load_edges_seq ((λ f, (root, f)) <$> files) st.
Proof.
  revert st. induction files as [|f files IH]; intros st; simpl; [done|].
  destruct (load_edge_file root f st); simpl; [done|]. apply IH.
Qed.

Lemma load_edges_walk_seq walk st :
  load_edges_walk walk st = load_edges_seq (walk_files walk) st.
Proof.
  revert st. induction walk as [|[root files] walk IH]; intros st; [done|].
  unfold walk_files. rewrite bind_cons. simpl.
  rewrite load_edges_seq_app, load_edges_files_seq.
  destruct (load_edges_seq _ st); simpl; [done|]. apply IH.
Qed.

Lemma load_edges_unfold directory nodes :
  load_edges directory nodes
  = rbind (load_edges_seq (walk_files directory) (∅, nodes)) (λ st, ok (snd st)).
Proof. unfold load_edges. by rewrite load_edges_walk_seq. Qed.

(** What a successful pass through the loop body has checked and done. *)
Lemma load_edge_inr e edges nodes edges' nodes' :
  load_edge e (edges, nodes) = inr (edges', nodes') →
  edges !! edge_key e = None ∧ edges' = <[edge_key e := e]> edges ∧
  ∃ from_node to_node,
    nodes !! from_ e = Some from_node ∧ nodes !! to_ e = Some to_node ∧
    Py.set (edge_channels e) = channels from_node ∩ channels to_node ∧
    nodes' = <[to_ e := set_previous to_node
                 (match previous to_node with
                  | Some p => p ∪ {[from_ e]}
                  | None => {[from_ e]}
                  end)]> nodes.
Proof.
  unfold load_edge, edge_key, getitem. intros H.
  destruct (decide (is_Some (edges !! (from_ e, to_ e)))) as [|Hnew]; [done|].
  apply eq_None_not_Some in Hnew.
  destruct (nodes !! from_ e) as [fn|] eqn:Hf; simpl in H; [|done].
  destruct (nodes !! to_ e) as [tn|] eqn:Ht; simpl in H; [|done].
  destruct (decide (Py.set (edge_channels e) ≠ channels fn ∩ channels tn))
    as [|Heq]; [done|].
  apply dec_stable in Heq. injection H as <- <-.
  split_and!; [done..|]. exists fn, tn. split_and!; [done..|].
  by destruct (previous tn).
Qed.

(** A file either leaves the state alone or is an edge file whose edge
    went through the loop body. *)
Lemma load_edge_file_inr root f st st' :
  load_edge_file root f st = inr st' →
  (Py.endswith (filename f) ".json" = false ∧ st' = st)
  ∨ ∃ e, edge_file f e ∧ load_edge e st = inr st'.
Proof.
  unfold load_edge_file, edge_file. intros H.
  destruct (Py.endswith (filename f) ".json"); simpl in H.
  - destruct (json f) as [e|]; [|done]. right. eauto.
  - left. by injection H as <-.
Qed.

Lemma load_edge_file_edge root f e st :
  edge_file f e → load_edge_file root f st = load_edge e st.
Proof. unfold load_edge_file. intros [-> ->]. done. Qed.

(** What [load_edges] keeps true from file to file: the nodes keep their
    versions and channels, the edges seen are the keys of [edges], and
    every edge seen joins two nodes on the channels they share. *)
Record loaded_edges (fs : list (string * File Edge))
    (st0 st : gmap EdgeKey Edge * gmap string Node) : Prop := {
  loaded_channels v : channels <$> st.2 !! v = channels <$> st0.2 !! v;
  loaded_metadata v : metadata <$> st.2 !! v = metadata <$> st0.2 !! v;
  loaded_keys k :
    is_Some (st.1 !! k) ↔
    is_Some (st0.1 !! k) ∨ ∃ root f e, (root, f) ∈ fs ∧ edge_file f e ∧ edge_key e = k;
  loaded_valid root f e :
    (root, f) ∈ fs → edge_file f e →
    ∃ from_node to_node,
      st0.2 !! from_ e = Some from_node ∧ st0.2 !! to_ e = Some to_node ∧
      Py.set (edge_channels e) = channels from_node ∩ channels to_node;
}.

Lemma edge_file_inj f e1 e2 : edge_file f e1 → edge_file f e2 → e1 = e2.
Proof. intros [_ H1] [_ H2]. congruence. Qed.

Lemma load_edges_seq_loaded fs st0 st :
  load_edges_seq fs st0 = inr st → loaded_edges fs st0 st.
Proof.
  revert st0. induction fs as [|[root f] fs IH]; intros st0 H; simpl in H.
  - injection H as <-. split; try done.
    + intros k. split; [by left|]. intros [?|(?&?&?&Hin&_)]; [done|].
      by apply elem_of_nil in Hin.
    + intros ??? Hin. by apply elem_of_nil in Hin.
  - apply rbind_inr in H as (st1 & Hf & H). apply IH in H as [Hc Hm Hk Hv].
    apply load_edge_file_inr in Hf as [[Hskip ->]|(e & He & Hf)].
    + split; [done|done|..].
      * intros k. rewrite Hk. split; intros [?|(r&g&e&Hin&Hg&?)]; auto.
        -- right. exists r, g, e. split_and!; [by right|done..].
        -- apply elem_of_cons in Hin as [[= -> ->]|Hin].
           ++ destruct Hg as [Hg _]. congruence.
           ++ right. eauto 10.
      * intros r g e Hin Hg. apply elem_of_cons in Hin as [[= -> ->]|Hin].
        -- destruct Hg as [Hg _]. congruence.
        -- eauto.
    + destruct st0 as [edges nodes], st1 as [edges1 nodes1].
      apply load_edge_inr in Hf as (Hnew & -> & fn & tn & Hfn & Htn & Hch & ->).
      simpl in *.
      assert (Hchan : ∀ v, channels <$> (<[to_ e := set_previous tn
                 (match previous tn with
                  | Some p => p ∪ {[from_ e]}
                  | None => {[from_ e]}
                  end)]> nodes) !! v = channels <$> nodes !! v).
      { intros v. destruct (decide (to_ e = v)) as [<-|].
        - by rewrite lookup_insert_eq, Htn.
        - by rewrite lookup_insert_ne. }
      split; simpl.
      * intros v. by rewrite Hc, Hchan.
      * intros v. rewrite Hm. destruct (decide (to_ e = v)) as [<-|].
        -- by rewrite lookup_insert_eq, Htn.
        -- by rewrite lookup_insert_ne.
      * intros k. rewrite Hk. split.
        -- intros [Hs|(r&g&e'&Hin&Hg&?)].
           ++ destruct (decide (edge_key e = k)) as [<-|Hne].
              ** right. exists root, f, e. split_and!; [by left|done..].
              ** rewrite lookup_insert_ne in Hs by done. by left.
           ++ right. exists r, g, e'. split_and!; [by right|done..].
        -- intros [Hs|(r&g&e'&Hin&Hg&<-)].
           ++ left. destruct (decide (edge_key e = k)) as [<-|Hne].
              ** by rewrite lookup_insert_eq.
              ** by rewrite lookup_insert_ne.
           ++ apply elem_of_cons in Hin as [[= -> ->]|Hin].
              ** left. rewrite (edge_file_inj _ _ _ Hg He).
                 by rewrite lookup_insert_eq.
              ** right. eauto 10.
      * intros r g e' Hin Hg. apply elem_of_cons in Hin as [[= -> ->]|Hin].
        -- rewrite (edge_file_inj _ _ _ Hg He). eauto.
        -- destruct (Hv r g e' Hin Hg) as (fn' & tn' & Hf' & Ht' & Hch').
           simpl in *.
           pose proof (Hchan (from_ e')) as H1. pose proof (Hchan (to_ e')) as H2.
           rewrite Hf' in H1. rewrite Ht' in H2. simpl in *.
           destruct (nodes !! from_ e') as [fn0|]; [|done].
           destruct (nodes !! to_ e') as [tn0|]; [|done].
           simpl in *. exists fn0, tn0. split_and!; [done..|]. congruence.
Qed.

Lemma lookup_None_fmap_channels (nodes1 nodes : gmap string Node) v :
  channels <$> nodes1 !! v = channels <$> nodes !! v →
  nodes !! v = None → nodes1 !! v = None.
Proof. intros H Hn. rewrite Hn in H. by destruct (nodes1 !! v). Qed.

(** An edge between versions [load_nodes] has not loaded stops
    [load_edges] with the [KeyError] of [nodes[...]]. *)
Lemma load_edge_missing_node e edges nodes :
  edges !! edge_key e = None →
  nodes !! from_ e = None ∨ nodes !! to_ e = None →
  load_edge e (edges, nodes)
  = raise (KeyError (if decide (nodes !! from_ e = None) then from_ e else to_ e)).
Proof.
  intros Hnew Hmiss. unfold load_edge, getitem. fold (edge_key e).
  rewrite decide_False by (rewrite Hnew; by intros []).
  destruct (decide (nodes !! from_ e = None)) as [Hf|Hf].
  { by rewrite Hf. }
  destruct Hmiss as [?|Ht]; [done|].
  destruct (nodes !! from_ e); [|done]. simpl. by rewrite Ht.
Qed.

(** Every edge file of a directory that loads joins two loaded nodes. *)
Lemma load_edges_total_only directory nodes nodes' root f e :
  load_edges directory nodes = inr nodes' →
  (root, f) ∈ walk_files directory → edge_file f e →
  is_Some (nodes !! from_ e) ∧ is_Some (nodes !! to_ e).
Proof.
  rewrite load_edges_unfold. intros H Hin He.
  apply rbind_inr in H as (st & H & _).
  apply load_edges_seq_loaded in H as [_ _ _ Hv].
  destruct (Hv root f e Hin He) as (fn & tn & Hf & Ht & _). simpl in *.
  rewrite Hf, Ht. eauto.
Qed.

(** C10. An edge file whose [from] or [to] is not a loaded node makes
    [load_edges] raise the [KeyError] of the dictionary indexing
    [nodes[edge['from']]] or [nodes[edge['to']]], with the missing version
    as its key, as soon as the files before it are loaded (when one of
    them raises, that error is the result); no such directory loads. *)
Theorem load_edges_unknown_endpoint
    (directory : Walk Edge) (nodes : gmap string Node)
    (before after : list (string * File Edge)) (root : string)
    (f : File Edge) (e : Edge) :
  walk_files directory = before ++ (root, f) :: after →
  edge_file f e →
  nodes !! from_ e = None ∨ nodes !! to_ e = None →
  load_edges directory nodes
  = rbind (load_edges_seq before (∅, nodes))
      (λ _, raise (KeyError
         (if decide (nodes !! from_ e = None) then from_ e else to_ e)))
  ∧ ∀ nodes', load_edges directory nodes ≠ inr nodes'.
Proof.
  intros Hw He Hmiss.
  assert (load_edges directory nodes
    = rbind (load_edges_seq before (∅, nodes))
        (λ _, raise (KeyError
           (if decide (nodes !! from_ e = None) then from_ e else to_ e))))
    as Heq.
  { rewrite load_edges_unfold, Hw, load_edges_seq_app.
    destruct (load_edges_seq before (∅, nodes)) as [x|[edges1 nodes1]] eqn:Hb;
      simpl; [done|].
    rewrite (load_edge_file_edge _ _ e) by done.
    apply load_edges_seq_loaded in Hb as [Hc _ Hk Hv]. simpl in Hc, Hk, Hv.
    assert (edges1 !! edge_key e = None) as Hnew.
    { apply eq_None_not_Some. rewrite Hk.
      intros [Hs|(r & g & e' & Hin & Hg & Hkey)].
      - rewrite lookup_empty in Hs. by destruct Hs.
      - destruct (Hv r g e' Hin Hg) as (fn & tn & Hf & Ht & _).
        injection Hkey as Hkf Hkt. rewrite Hkf in Hf. rewrite Hkt in Ht.
        destruct Hmiss; congruence. }
    rewrite load_edge_missing_node; [| done |].
    - simpl. destruct (decide (nodes !! from_ e = None)) as [Hn|Hn].
      + rewrite decide_True; [done|]. by apply (lookup_None_fmap_channels _ nodes).
      + rewrite decide_False; [done|]. intros Hn1.
        specialize (Hc (from_ e)). rewrite Hn1 in Hc.
        by destruct (nodes !! from_ e).
    - destruct Hmiss as [?|?]; [left|right];
        by apply (lookup_None_fmap_channels _ nodes). }
  split; [done|]. intros nodes'. rewrite Heq.
  by destruct (load_edges_seq before (∅, nodes)).
Qed.

(** C6. The second of two edge files with the same [from] and [to] makes
    [load_edges] raise the [ValueError] for duplicate edges as soon as
    the files before it are loaded, whatever the channels of the two
    edges are (when an earlier file raises, that error is the result); no
    directory with two such files loads. *)
Theorem load_edges_duplicate
    (directory : Walk Edge) (nodes : gmap string Node)
    (before between after : list (string * File Edge)) (root1 root2 : string)
    (f1 f2 : File Edge) (e1 e2 : Edge) :
  walk_files directory = before ++ (root1, f1) :: between ++ (root2, f2) :: after →
  edge_file f1 e1 → edge_file f2 e2 →
  from_ e1 = from_ e2 → to_ e1 = to_ e2 →
  load_edges directory nodes
  = rbind (load_edges_seq (before ++ (root1, f1) :: between) (∅, nodes))
      (λ _, raise (ValueError duplicate_edges))
  ∧ ∀ nodes', load_edges directory nodes ≠ inr nodes'.
Proof.
  intros Hw He1 He2 Hfrom Hto.
  assert (load_edges directory nodes
    = rbind (load_edges_seq (before ++ (root1, f1) :: between) (∅, nodes))
        (λ _, raise (ValueError duplicate_edges))) as Heq.
  { rewrite load_edges_unfold, Hw.
    replace (before ++ (root1, f1) :: between ++ (root2, f2) :: after)
      with ((before ++ (root1, f1) :: between) ++ (root2, f2) :: after)
      by (by rewrite <- app_assoc).
    rewrite load_edges_seq_app.
    destruct (load_edges_seq (before ++ (root1, f1) :: between) (∅, nodes))
      as [x|[edges1 nodes1]] eqn:Hb; simpl; [done|].
    rewrite (load_edge_file_edge _ _ e2) by done.
    apply load_edges_seq_loaded in Hb as [_ _ Hk _]. simpl in Hk.
    assert (is_Some (edges1 !! (from_ e2, to_ e2))) as Hs.
    { apply Hk. right. exists root1, f1, e1. split_and!; [|done|].
      - apply elem_of_app. right. by left.
      - unfold edge_key. congruence. }
    unfold load_edge. by rewrite decide_True. }
  split; [done|]. intros nodes'. rewrite Heq.
  by destruct (load_edges_seq _ (∅, nodes)).
Qed.

(** C5. An edge file that reaches the check of its channels (the files
    before it are loaded, none of them has its [from] and [to], and both
    are loaded nodes) gets past the check exactly when the set of its
    channels is the intersection of the channels of its two nodes;
    otherwise [load_edges] raises the [ValueError] that names the two
    sorted channel lists. *)
Theorem load_edges_channels_check
    (directory : Walk Edge) (nodes : gmap string Node)
    (before after : list (string * File Edge)) (root : string)
    (f : File Edge) (e : Edge)
    (edges1 : gmap EdgeKey Edge) (nodes1 : gmap string Node)
    (from_node to_node : Node) :
  walk_files directory = before ++ (root, f) :: after →
  edge_file f e →
  load_edges_seq before (∅, nodes) = inr (edges1, nodes1) →
  edges1 !! edge_key e = None →
  nodes !! from_ e = Some from_node →
  nodes !! to_ e = Some to_node →
  ((∃ st, load_edges_seq (before ++ [(root, f)]) (∅, nodes) = inr st)
   ↔ Py.set (edge_channels e) = channels from_node ∩ channels to_node)
  ∧ (Py.set (edge_channels e) ≠ channels from_node ∩ channels to_node →
     load_edges directory nodes
     = raise (ValueError (edge_channels_differ
                (Py.sorted (edge_channels e))
                (Py.sorted_set (channels from_node ∩ channels to_node))))).
Proof.
  intros Hw He Hb Hnew Hf Ht.
  pose proof (load_edges_seq_loaded _ _ _ Hb) as [Hc _ _ _]. simpl in Hc.
  pose proof (Hc (from_ e)) as Hcf. pose proof (Hc (to_ e)) as Hct.
  rewrite Hf in Hcf. rewrite Ht in Hct.
  destruct (nodes1 !! from_ e) as [fn1|] eqn:Hf1; [|done].
  destruct (nodes1 !! to_ e) as [tn1|] eqn:Ht1; [|done].
  simpl in Hcf, Hct. injection Hcf as Hcf. injection Hct as Hct.
  assert (∀ fs, load_edges_seq (before ++ (root, f) :: fs) (∅, nodes)
    = if decide (Py.set (edge_channels e) ≠ channels from_node ∩ channels to_node)
      then raise (ValueError (edge_channels_differ
                (Py.sorted (edge_channels e))
                (Py.sorted_set (channels from_node ∩ channels to_node))))
      else load_edges_seq fs
             (<[edge_key e := e]> edges1,
              <[to_ e := match previous tn1 with
                         | Some p => set_previous tn1 (p ∪ {[from_ e]})
                         | None => set_previous tn1 {[from_ e]}
                         end]> nodes1)) as Hstep.
  { intros fs. rewrite load_edges_seq_app, Hb. simpl.
    rewrite (load_edge_file_edge _ _ e) by done.
    unfold load_edge, getitem. fold (edge_key e).
    rewrite decide_False by (rewrite Hnew; by intros []).
    rewrite Hf1, Ht1. simpl. rewrite Hcf, Hct.
    by destruct (decide (Py.set (edge_channels e)
                         ≠ channels from_node ∩ channels to_node)). }
  split.
  - rewrite Hstep. split.
    + intros [st Hst].
      destruct (decide (Py.set (edge_channels e)
                        ≠ channels from_node ∩ channels to_node)) as [|Heq];
        [done|]. by apply dec_stable in Heq.
    + intros Heq. rewrite decide_False by (by intros []). simpl. eauto.
  - intros Hne. rewrite load_edges_unfold, Hw, Hstep.
    by rewrite decide_True.
Qed.

(** ** load_nodes *)

(** The two loops of the first part of [load_nodes] as one loop. *)
Fixpoint load_nodes_seq (fs : list (string * File NodeDoc))
    (nodes : gmap string Node) : result (gmap string Node) :=
  match fs with
  | [] => ok nodes
  | (root, f) :: fs' =>
      try! nodes' := load_node_file root f nodes in
      load_nodes_seq fs' nodes'
  end.

(** [f] is a file [load_nodes] reads the node [d] from. *)
Definition node_file (f : File NodeDoc) (d : NodeDoc) : Prop :=
  Py.endswith (filename f) ".json" = true ∧ json f = Some d.

(** The version [v] has a node file in a directory named [c]. *)
Definition appears_in (fs : list (string * File NodeDoc)) (v c : string) : Prop :=
  ∃ root f d, (root, f) ∈ fs ∧ node_file f d ∧ doc_version d = v
              ∧ Py.basename root = c.

Lemma load_nodes_seq_app fs1 fs2 nodes :
  load_nodes_seq (fs1 ++ fs2) nodes
  = rbind (load_nodes_seq fs1 nodes) (load_nodes_seq fs2).
Proof.
  revert nodes. induction fs1 as [|[root f] fs1 IH]; intros nodes; simpl; [done|].
  destruct (load_node_file root f nodes) as [x|nodes']; simpl; [done|]. apply IH.
Qed.

Lemma load_nodes_files_seq root files nodes :
  load_nodes_files root files nodes
  = load_nodes_seq ((λ f, (root, f)) <$> files) nodes.
Proof.
  revert nodes. induction files as [|f files IH]; intros nodes; simpl; [done|].
  destruct (load_node_file root f nodes); simpl; [done|]. apply IH.
Qed.

Lemma load_nodes_walk_seq walk nodes :
  load_nodes_walk walk nodes = load_nodes_seq (walk_files walk) nodes.
Proof.
  revert nodes. induction walk as [|[root files] walk IH]; intros nodes; [done|].
  unfold walk_files. rewrite bind_cons. simpl.
  rewrite load_nodes_seq_app, load_nodes_files_seq.
  destruct (load_nodes_seq _ nodes); simpl; [done|]. apply IH.
Qed.

Lemma appears_in_cons_skip root f fs v c :
  Py.endswith (filename f) ".json" = false →
  appears_in ((root, f) :: fs) v c ↔ appears_in fs v c.
Proof.
  intros Hskip. split; intros (r & g & d & Hin & Hg & Hv & Hc).
  - apply elem_of_cons in Hin as [[= -> ->]|Hin].
    + destruct Hg as [Hg _]. congruence.
    + by exists r, g, d.
  - exists r, g, d. split_and!; [by right|done..].
Qed.

Lemma appears_in_cons_file root f d fs v c :
  node_file f d →
  appears_in ((root, f) :: fs) v c
  ↔ (doc_version d = v ∧ Py.basename root = c) ∨ appears_in fs v c.
Proof.
  intros Hf. split.
  - intros (r & g & d' & Hin & Hg & Hv & Hc).
    apply elem_of_cons in Hin as [[= -> ->]|Hin].
    + left. destruct Hf as [_ Hf], Hg as [_ Hg]. by simplify_eq.
    + right. by exists r, g, d'.
  - intros [[Hv Hc]|(r & g & d' & Hin & Hg & Hv & Hc)].
    + exists root, f, d. split_and!; [by left|done..].
    + exists r, g, d'. split_and!; [by right|done..].
Qed.

(** The channels of a node are those it had and the names of the
    directories its version has a file in. *)
Lemma load_nodes_seq_channels fs nodes0 nodes v node c :
  load_nodes_seq fs nodes0 = inr nodes → nodes !! v = Some node →
  c ∈ channels node
  ↔ (∃ n0, nodes0 !! v = Some n0 ∧ c ∈ channels n0) ∨ appears_in fs v c.
Proof.
  revert nodes0. induction fs as [|[root f] fs IH]; intros nodes0 H Hn; simpl in H.
  - injection H as <-. split.
    + intros Hc. left. eauto.
    + intros [(n0 & Hn0 & Hc)|(?&?&?&Hin&_)]; [by simplify_eq|].
      by apply elem_of_nil in Hin.
  - apply rbind_inr in H as (nodesm & Hf & H).
    rewrite (IH _ H Hn). clear IH H Hn. unfold load_node_file in Hf.
    destruct (Py.endswith (filename f) ".json") eqn:Hjson; simpl in Hf.
    2: { injection Hf as <-. by rewrite appears_in_cons_skip. }
    destruct (json f) as [d|] eqn:Hd; [|done].
    rewrite (appears_in_cons_file root f d) by done.
    destruct (nodes0 !! doc_version d) as [pn|] eqn:Hpn; injection Hf as <-.
    + destruct (decide (doc_version d = v)) as [<-|Hne].
      * rewrite lookup_insert_eq, Hpn. split.
        -- intros [(n0 & [= <-] & Hc)|Hc]; [|tauto]. simpl in Hc.
           apply elem_of_union in Hc as [Hc|Hc]; [left; eauto|].
           apply elem_of_singleton in Hc. right. left. by subst.
        -- intros [(n0 & [= <-] & Hc)|[[_ Hc]|Hc]]; [| |tauto].
           ++ left. eexists. split; [done|]. simpl. set_solver.
           ++ left. eexists. split; [done|]. simpl. set_solver.
      * rewrite lookup_insert_ne by done. tauto.
    + destruct (decide (doc_version d = v)) as [<-|Hne].
      * rewrite lookup_insert_eq, Hpn. split.
        -- intros [(n0 & [= <-] & Hc)|Hc]; [|tauto]. simpl in Hc.
           apply elem_of_singleton in Hc. right. left. by subst.
        -- intros [(n0 & [=] & _)|[[_ Hc]|Hc]]; [|tauto].
           left. eexists. split; [done|]. simpl. set_solver.
      * rewrite lookup_insert_ne by done. tauto.
Qed.

Lemma sorted_set_Sorted (s : gset string) : Sorted Py.str_le (Py.sorted_set s).
Proof. apply Sorted_merge_sort, _. Qed.

Lemma elem_of_sorted_set (s : gset string) x : x ∈ Py.sorted_set s ↔ x ∈ s.
Proof.
  unfold Py.sorted_set, Py.sorted. rewrite merge_sort_Permutation.
  apply elem_of_elements.
Qed.

(** C7. Every node [load_nodes] returns has a metadata dictionary, and
    the dictionary maps the release-channels key to the channels of the
    node, sorted and joined with commas; the channels of a node are the
    names of the directories its version has a file in, so that a node
    with the channels stable and fast gets the value fast,stable. *)
Theorem load_nodes_release_channels
    (directory : Walk NodeDoc) (nodes : gmap string Node)
    (v : string) (node : Node) :
  load_nodes directory = inr nodes →
  nodes !! v = Some node →
  (∀ c, c ∈ channels node ↔ appears_in (walk_files directory) v c)
  ∧ Sorted Py.str_le (Py.sorted_set (channels node))
  ∧ (∀ c, c ∈ Py.sorted_set (channels node) ↔ c ∈ channels node)
  ∧ ∃ md, metadata node = Some md
     ∧ md !! release_channels
       = Some (Py.join "," (Py.sorted_set (channels node)))
     ∧ (channels node = {[ "stable"; "fast" ]} →
        md !! release_channels = Some "fast,stable").
Proof.
  unfold load_nodes. intros H Hn. apply rbind_inr in H as (nodes0 & H & [= <-]).
  rewrite load_nodes_walk_seq in H. rewrite lookup_fmap in Hn.
  destruct (nodes0 !! v) as [n0|] eqn:Hn0; [|done]. injection Hn as <-.
  split_and!.
  - intros c. simpl. rewrite (load_nodes_seq_channels _ _ _ _ _ c H Hn0).
    split; [|tauto]. intros [(? & Hl & _)|?]; [|done].
    by rewrite lookup_empty in Hl.
  - apply sorted_set_Sorted.
  - apply elem_of_sorted_set.
  - eexists. split; [done|]. simpl. rewrite lookup_insert_eq.
    split; [done|]. intros ->. vm_compute. reflexivity.
Qed.

(** ** A small graph *)

Module Ex.

Definition doc (v : string) : NodeDoc :=
  {| doc_version := v; doc_payload := "quay.io/openshift/release@sha256:" +:+ v;
     doc_metadata := None |}.

Definition node_json (v : string) : File NodeDoc :=
  {| filename := v +:+ ".json"; json := Some (doc v) |}.

(** [channels/stable] holds 4.1.0, [channels/fast] holds 4.1.0 and 4.1.1. *)
Definition channels_dir : Walk NodeDoc :=
  [ ("./channels", []);
    ("./channels/stable", [node_json "4.1.0"]);
    ("./channels/fast", [node_json "4.1.0"; node_json "4.1.1"]) ].

Definition node (v : string) (cs : gset string) : Node :=
  {| version := v; payload := "quay.io/openshift/release@sha256:" +:+ v;
     metadata := Some {[ release_channels := Py.join "," (Py.sorted_set cs) ]};
     channels := cs; previous := None |}.

Definition nodes : gmap string Node :=
  {[ "4.1.0" := node "4.1.0" {[ "stable"; "fast" ]};
     "4.1.1" := node "4.1.1" {[ "fast" ]} ]}.

Definition edge_json (name : string) (e : Edge) : File Edge :=
  {| filename := name; json := Some e |}.

Definition upgrade : Edge :=
  {| from_ := "4.1.0"; to_ := "4.1.1"; edge_channels := ["fast"] |}.

Definition upgrade_stable : Edge :=
  {| from_ := "4.1.0"; to_ := "4.1.1"; edge_channels := ["stable"] |}.

Definition upgrade_unknown : Edge :=
  {| from_ := "4.1.0"; to_ := "4.2.0"; edge_channels := ["fast"] |}.

End Ex.

Example load_nodes_ex : load_nodes Ex.channels_dir = inr Ex.nodes.
Proof. vm_compute. reflexivity. Qed.

Example load_edges_ex :
  load_edges [("./edges", [Ex.edge_json "a.json" Ex.upgrade])] Ex.nodes
  = inr (<["4.1.1" := set_previous (Ex.node "4.1.1" {[ "fast" ]}) {[ "4.1.0" ]}]>
           Ex.nodes).
Proof. vm_compute. reflexivity. Qed.

Lemma load_nodes_release_channels_witness :
  ∃ md, metadata (Ex.node "4.1.0" {[ "stable"; "fast" ]}) = Some md
        ∧ md !! release_channels = Some "fast,stable".
Proof.
  destruct (load_nodes_release_channels Ex.channels_dir Ex.nodes "4.1.0"
              (Ex.node "4.1.0" {[ "stable"; "fast" ]}))
    as (_ & _ & _ & md & Hmd & _ & Hval).
  - vm_compute. reflexivity.
  - vm_compute. reflexivity.
  - exists md. split; [exact Hmd|]. apply Hval. vm_compute. reflexivity.
Defined.

Lemma load_edges_unknown_endpoint_witness :
  load_edges
    [("./edges", [Ex.edge_json "a.json" Ex.upgrade;
                  Ex.edge_json "b.json" Ex.upgrade_unknown])] Ex.nodes
  = raise (KeyError "4.2.0").
Proof.
  destruct (load_edges_unknown_endpoint
              [("./edges", [Ex.edge_json "a.json" Ex.upgrade;
                            Ex.edge_json "b.json" Ex.upgrade_unknown])]
              Ex.nodes [("./edges", Ex.edge_json "a.json" Ex.upgrade)] []
              "./edges" (Ex.edge_json "b.json" Ex.upgrade_unknown)
              Ex.upgrade_unknown) as [H _].
  - vm_compute. reflexivity.
  - split; vm_compute; reflexivity.
  - right. vm_compute. reflexivity.
  - rewrite H. vm_compute. reflexivity.
Defined.

Lemma load_edges_duplicate_witness :
  load_edges
    [("./edges", [Ex.edge_json "a.json" Ex.upgrade;
                  Ex.edge_json "b.json" Ex.upgrade_stable])] Ex.nodes
  = raise (ValueError duplicate_edges).
Proof.
  destruct (load_edges_duplicate
              [("./edges", [Ex.edge_json "a.json" Ex.upgrade;
                            Ex.edge_json "b.json" Ex.upgrade_stable])]
              Ex.nodes [] [] [] "./edges" "./edges"
              (Ex.edge_json "a.json" Ex.upgrade)
              (Ex.edge_json "b.json" Ex.upgrade_stable)
              Ex.upgrade Ex.upgrade_stable) as [H _].
  - vm_compute. reflexivity.
  - split; vm_compute; reflexivity.
  - split; vm_compute; reflexivity.
  - reflexivity.
  - reflexivity.
  - rewrite H. vm_compute. reflexivity.
Defined.

Lemma load_edges_channels_check_witness :
  load_edges [("./edges", [Ex.edge_json "b.json" Ex.upgrade_stable])] Ex.nodes
  = raise (ValueError (edge_channels_differ ["stable"] ["fast"])).
Proof.
  destruct (load_edges_channels_check
              [("./edges", [Ex.edge_json "b.json" Ex.upgrade_stable])]
              Ex.nodes [] [] "./edges"
              (Ex.edge_json "b.json" Ex.upgrade_stable) Ex.upgrade_stable
              ∅ Ex.nodes
              (Ex.node "4.1.0" {[ "stable"; "fast" ]})
              (Ex.node "4.1.1" {[ "fast" ]})) as [_ H].
  - vm_compute. reflexivity.
  - split; vm_compute; reflexivity.
  - reflexivity.
  - vm_compute. reflexivity.
  - vm_compute. reflexivity.
  - vm_compute. reflexivity.
  - rewrite H; [vm_compute; reflexivity|]. vm_compute. discriminate.
Defined.

(** * Properties of the reconciler *)

(** ** What a run does to the registry *)

(** The label changes [sync_node] decides on, before [delete_label] and
    [post_label] turn them into requests. *)
Inductive action :=
| Delete (label : string)
| Post (label : Label).

Definition to_request (base t : string) (a : action) : request :=
  match a with
  | Delete label => DELETE (base +:+ "/labels/" +:+ label) label t
  | Post l => POST (base +:+ "/labels") l t
  end.

(** The requests the registry receives for a list of decisions: none in a
    dry run. *)
Definition requests (base : string) (token : option string)
    (acts : list action) : list request :=
  match bearer token with
  | Some t => to_request base t <$> acts
  | None => []
  end.

(** The line [delete_label] or [post_label] prints for a decision. *)
Definition call_line (version base : string) (a : action) : printed :=
  match a with
  | Delete label => print_call version "delete" (base +:+ "/labels/" +:+ label)
  | Post _ => print_call version "post" (base +:+ "/labels")
  end.

Definition is_call (line : printed) : bool :=
  match line with
  | print_call _ _ _ => true
  | _ => false
  end.

(** The lines of [delete_label] and [post_label] among the printed ones. *)
Definition calls (out : list printed) : list printed := List.filter is_call out.

Definition apply_requests (qs : list request) (ls : list Label) : list Label :=
  foldl (λ ls q, apply_request q ls) ls qs.

Lemma requests_app base token a1 a2 :
  requests base token (a1 ++ a2) = requests base token a1 ++ requests base token a2.
Proof. unfold requests. destruct (bearer token); [apply fmap_app|done]. Qed.

Lemma requests_nil base token : requests base token [] = [].
Proof. unfold requests. by destruct (bearer token). Qed.

Lemma calls_app o1 o2 : calls (o1 ++ o2) = calls o1 ++ calls o2.
Proof. apply List.filter_app. Qed.

Section performs.
Context (ly : list Layer) (node : Node) (token : option string) (base : string).
Context (Hbase : manifest_uri node = inr base).

(** [w'] is [w] after the decisions [acts]: their requests were sent and
    applied, each was printed, and the layers are the same. *)
Definition after (w : World) (acts : list action) (w' : World) : Prop :=
  sent w' = sent w ++ requests base token acts
  ∧ labels w' = apply_requests (requests base token acts) (labels w)
  ∧ layers w' = layers w
  ∧ calls (stdout w') = calls (stdout w) ++ (call_line (version node) base <$> acts).

Lemma after_nil w : after w [] w.
Proof. unfold after. rewrite requests_nil. simpl. by rewrite !app_nil_r. Qed.

Lemma after_app w a1 w1 a2 w2 :
  after w a1 w1 → after w1 a2 w2 → after w (a1 ++ a2) w2.
Proof.
  intros (Hs1 & Hl1 & Hy1 & Hc1) (Hs2 & Hl2 & Hy2 & Hc2).
  unfold after, apply_requests.
  rewrite Hs2, Hs1, Hl2, Hl1, Hy2, Hy1, Hc2, Hc1, requests_app, foldl_app,
    fmap_app, !app_assoc. done.
Qed.

(** [m], run in any world whose layers are [ly], returns or raises [r]
    and performs the decisions [acts]. *)
Definition performs {A} (m : M A) (r : result A) (acts : list action) : Prop :=
  ∀ w, layers w = ly → ∃ w', m w = (r, w') ∧ after w acts w'.

Lemma performs_eq {A} (m : M A) r r' acts acts' :
  performs m r acts → r = r' → acts = acts' → performs m r' acts'.
Proof. by intros H <- <-. Qed.

Lemma performs_ret {A} (a : A) : performs (ret a) (ok a) [].
Proof. intros w _. exists w. split; [done|apply after_nil]. Qed.

Lemma performs_lift {A} (r : result A) : performs (lift r) r [].
Proof. intros w _. exists w. split; [done|apply after_nil]. Qed.

Lemma performs_print line :
  is_call line = false → performs (print line) (ok tt) [].
Proof.
  intros Hline w _. eexists. split; [reflexivity|]. unfold after.
  rewrite requests_nil. simpl. rewrite calls_app. simpl. rewrite Hline.
  by rewrite !app_nil_r.
Qed.

Lemma performs_bind {A B} (m : M A) (k : A → M B) a a1 r a2 :
  performs m (inr a) a1 → performs (k a) r a2 →
  performs (bind m k) r (a1 ++ a2).
Proof.
  intros Hm Hk w Hly. destruct (Hm w Hly) as (w1 & Hw1 & Ha1).
  destruct (Hk w1) as (w2 & Hw2 & Ha2).
  { destruct Ha1 as (_ & _ & -> & _). done. }
  exists w2. unfold bind. rewrite Hw1. split; [done|]. by eapply after_app.
Qed.

Lemma performs_raise {A B} (m : M A) (k : A → M B) e a1 :
  performs m (inl e) a1 → performs (bind m k) (inl e) a1.
Proof.
  intros Hm w Hly. destruct (Hm w Hly) as (w1 & Hw1 & Ha1). exists w1.
  unfold bind. by rewrite Hw1.
Qed.

Lemma performs_delete_label label :
  performs (delete_label node label token) (ok tt) [Delete label].
Proof.
  intros w _. unfold delete_label, bind, lift, after, requests.
  rewrite Hbase. simpl.
  destruct (bearer token); eexists; (split; [reflexivity|]);
    simpl; rewrite calls_app, ?app_nil_r; done.
Qed.

Lemma performs_post_label label :
  performs (post_label node label token) (ok tt) [Post label].
Proof.
  intros w _. unfold post_label, bind, lift, after, requests.
  rewrite Hbase. simpl.
  destruct (bearer token); eexists; (split; [reflexivity|]);
    simpl; rewrite calls_app, ?app_nil_r; done.
Qed.

Lemma performs_get_release_metadata :
  performs (get_release_metadata node) (search_layers node ly) [].
Proof.
  intros w Hly. unfold get_release_metadata, bind, lift. rewrite Hbase, Hly.
  exists w. split; [done|apply after_nil].
Qed.
End performs.

(** ** The decisions of [sync_node], as the specification words them *)

Definition delete_if_present (L : gmap string Label) (k : string) : list action :=
  if decide (is_Some (L !! k)) then [Delete k] else [].

(** The channels label: nothing when the label holds the desired value;
    a delete and a create when it holds another value; a create alone
    when the label is absent or holds the empty string. *)
Definition channels_actions (desired : string) (L : gmap string Label)
    : list action :=
  let current := label_value L release_channels in
  if Py.truthy current then
    if String.eqb current desired then []
    else [Delete release_channels; Post (text_label release_channels desired)]
  else [Post (text_label release_channels desired)].

(** The retired labels are deleted when present. *)
Definition next_actions (L : gmap string Label) : list action :=
  delete_if_present L next_add ++ delete_if_present L next_remove.

(** A predecessor label: when the set the label holds differs from the
    wanted one, delete the label if present and, if the wanted set is not
    empty, create it with the sorted, comma-joined set. *)
Definition change_actions (label : string) (want : gset string)
    (L : gmap string Label) : list action :=
  if decide (parse_versions (label_value L label) ≠ want) then
    delete_if_present L label
    ++ (if decide (want ≠ ∅)
        then [Post (text_label label (Py.join "," (Py.sorted_set want)))]
        else [])
  else [].

(** A node with declared predecessors. *)
Definition declared_actions (declared published : gset string)
    (L : gmap string Label) : list action :=
  change_actions previous_remove (published ∖ declared) L
  ++ change_actions previous_add (declared ∖ published) L.

(** A node without declared predecessors: what is decided before the
    release metadata is read, and what is decided from it. *)
Definition undeclared_add_actions (L : gmap string Label) : list action :=
  delete_if_present L previous_add.

Definition undeclared_remove_actions (published : list string)
    (L : gmap string Label) : list action :=
  match published with
  | [] => []
  | _ :: _ =>
      delete_if_present L previous_remove ++ [Post (text_label previous_remove "*")]
  end.

(** ** The blocks of [sync_node] perform the decisions *)

Ltac perform :=
  lazymatch goal with
  | |- performs _ _ _ _ (bind _ _) _ _ =>
      first [ eapply performs_bind;
              [ perform
              | cbv beta;
                repeat match goal with
                       | H : String.eqb _ _ = _ |- _ => rewrite H
                       end;
                simpl; perform ]
            | eapply performs_raise; perform ]
  | |- performs _ _ _ _ (ret _) _ _ => apply performs_ret
  | |- performs _ _ _ _ (lift _) _ _ => apply performs_lift
  | |- performs _ _ _ _ (print _) _ _ => by apply performs_print
  | |- performs _ _ _ _ (delete_label _ _ _) _ _ =>
      by apply performs_delete_label
  | |- performs _ _ _ _ (post_label _ _ _) _ _ =>
      by apply performs_post_label
  | |- performs _ _ _ _ (get_release_metadata _) _ _ =>
      by apply performs_get_release_metadata
  end.

Ltac performs_by := eapply performs_eq; [perform | reflexivity | reflexivity].

Section blocks.
Context (ly : list Layer) (node : Node) (token : option string) (base : string).
Context (Hbase : manifest_uri node = inr base).

Abbreviation performs := (performs ly node token base).

Lemma sync_channels_performs L desired :
  desired_channels node = inr desired →
  performs (sync_channels node L token) (ok tt) (channels_actions desired L).
Proof.
  intros Hd. unfold sync_channels, channels_actions. rewrite Hd.
  destruct (label_value L release_channels) as [|c cs] eqn:Hc.
  - simpl. performs_by.
  - cbn [Py.truthy].
    destruct (String.eqb (String c cs) desired) eqn:Heq; cbn [negb];
      performs_by.
Qed.

Lemma sync_channels_raises L e :
  desired_channels node = inl e →
  performs (sync_channels node L token) (inl e) [].
Proof.
  intros Hd. unfold sync_channels. rewrite Hd.
  destruct (label_value L release_channels) as [|c cs]; cbn [Py.truthy];
    performs_by.
Qed.

Lemma delete_if_present_performs L k :
  performs (if decide (is_Some (L !! k))
            then delete_label node k token else ret tt)
    (ok tt) (delete_if_present L k).
Proof.
  unfold delete_if_present. destruct (decide (is_Some (L !! k))); perform.
Qed.

Lemma purge_next_performs L :
  performs (purge_next node L token ["next.add"; "next.remove"]) (ok tt)
    (next_actions L).
Proof.
  unfold next_actions. simpl.
  eapply performs_bind; [apply (delete_if_present_performs L next_add)|].
  eapply performs_eq; [|reflexivity|apply app_nil_r].
  eapply performs_bind; [apply (delete_if_present_performs L next_remove)|].
  apply performs_ret.
Qed.

Lemma change_previous_performs L what label want :
  performs (change_previous node L token what label want) (ok tt)
    (change_actions label want L).
Proof.
  unfold change_previous, change_actions.
  destruct (decide (parse_versions (label_value L label) ≠ want)); [|perform].
  eapply performs_eq; [|reflexivity|apply app_nil_l].
  eapply performs_bind; [by apply performs_print|].
  eapply performs_bind; [apply delete_if_present_performs|].
  destruct (decide (want ≠ ∅)); perform.
Qed.
End blocks.

(** The decisions on the predecessor labels and the outcome of the block,
    from what [get_release_metadata] returns or raises. *)
Definition previous_plan (node : Node) (L : gmap string Label)
    (mr : result ReleaseMetadata) : list action * result unit :=
  let declared := default ∅ (previous node) in
  if decide (declared ≠ ∅) then
    match mr with
    | inl e => ([], inl e)
    | inr meta =>
        (declared_actions declared (Py.set (published_previous meta)) L, ok tt)
    end
  else if String.eqb (label_value L previous_remove) "*" then
    (undeclared_add_actions L, ok tt)
  else
    match mr with
    | inl e => (undeclared_add_actions L, inl e)
    | inr meta =>
        (undeclared_add_actions L
         ++ undeclared_remove_actions (published_previous meta) L, ok tt)
    end.

(** The decisions of a whole run. *)
Definition sync_plan (node : Node) (L : gmap string Label)
    (mr : result ReleaseMetadata) : list action * result unit :=
  match desired_channels node with
  | inl e => ([], inl e)
  | inr desired =>
      let p := previous_plan node L mr in
      (channels_actions desired L ++ next_actions L ++ p.1, p.2)
  end.

Section plan.
Context (ly : list Layer) (node : Node) (token : option string) (base : string).
Context (Hbase : manifest_uri node = inr base).

Abbreviation performs := (performs ly node token base).

Lemma sync_previous_performs L :
  performs (sync_previous node L token)
    (previous_plan node L (search_layers node ly)).2
    (previous_plan node L (search_layers node ly)).1.
Proof.
  unfold sync_previous, previous_plan.
  destruct (decide (default ∅ (previous node) ≠ ∅)) as [Hd|Hd].
  - destruct (search_layers node ly) as [e|meta] eqn:Hm; simpl.
    + eapply performs_raise. rewrite <- Hm.
      by apply performs_get_release_metadata.
    + unfold declared_actions.
      eapply performs_eq; [|reflexivity|apply app_nil_l].
      eapply performs_bind.
      { rewrite <- Hm. by apply performs_get_release_metadata. }
      simpl. eapply performs_bind; by apply change_previous_performs.
  - assert (performs
              (if decide (is_Some (L !! previous_add)) then
                 do! _ := print (print_had_previous_additions (version node)) in
                 delete_label node previous_add token
               else ret tt) (ok tt) (undeclared_add_actions L)) as Hadd.
    { unfold undeclared_add_actions, delete_if_present.
      destruct (decide (is_Some (L !! previous_add))); [|perform].
      performs_by. }
    destruct (String.eqb (label_value L previous_remove) "*") eqn:Hstar; simpl.
    + eapply performs_eq; [|reflexivity|apply app_nil_r].
      eapply performs_bind; [apply Hadd|]. apply performs_ret.
    + destruct (search_layers node ly) as [e|meta] eqn:Hm; simpl.
      * eapply performs_eq; [|reflexivity|apply app_nil_r].
        eapply performs_bind; [apply Hadd|]. eapply performs_raise.
        rewrite <- Hm. by apply performs_get_release_metadata.
      * eapply performs_bind; [apply Hadd|].
        eapply performs_eq; [|reflexivity|apply app_nil_l].
        eapply performs_bind.
        { rewrite <- Hm. by apply performs_get_release_metadata. }
        simpl. unfold undeclared_remove_actions.
        destruct (published_previous meta); [perform|].
        eapply performs_eq; [|reflexivity|apply app_nil_l].
        eapply performs_bind; [by apply performs_print|].
        eapply performs_bind; [by apply delete_if_present_performs|].
        by apply performs_post_label.
Qed.

Lemma sync_blocks_performs L desired :
  desired_channels node = inr desired →
  performs
    (do! _ := sync_channels node L token in
     do! _ := purge_next node L token ["next.add"; "next.remove"] in
     sync_previous node L token)
    (previous_plan node L (search_layers node ly)).2
    (channels_actions desired L ++ next_actions L
     ++ (previous_plan node L (search_layers node ly)).1).
Proof.
  intros Hd.
  eapply performs_bind; [by apply sync_channels_performs|].
  eapply performs_bind; [by apply purge_next_performs|].
  apply sync_previous_performs.
Qed.
End plan.

(** A run of [sync_node] takes the labels of the manifest, returns or
    raises what the plan says, and performs the decisions of the plan. *)
Lemma sync_node_performs node token base w :
  manifest_uri node = inr base →
  ∃ w',
    sync_node node token w
    = ((sync_plan node (labels_dict (labels w))
          (search_layers node (layers w))).2, w')
    ∧ after node token base w
        (sync_plan node (labels_dict (labels w))
           (search_layers node (layers w))).1 w'.
Proof.
  intros Hbase. unfold sync_node, get_labels, sync_plan.
  unfold bind at 1. unfold bind at 1. unfold lift. rewrite Hbase.
  set (L := labels_dict (labels w)).
  destruct (desired_channels node) as [e|desired] eqn:Hd; simpl.
  - eapply (performs_raise (layers w)); [|done].
    by apply sync_channels_raises.
  - by eapply (sync_blocks_performs (layers w)).
Qed.

Lemma sync_node_non_Quay node token e w :
  manifest_uri node = inl e → sync_node node token w = (inl e, w).
Proof.
  intros He. unfold sync_node, get_labels, bind, lift. by rewrite He.
Qed.

Lemma after_new_requests node token base w acts w' :
  after node token base w acts w' →
  new_requests w w' = requests base token acts.
Proof.
  intros (Hs & _). unfold new_requests. rewrite Hs. apply drop_app_length.
Qed.

(** A block run in a world: what it returns and the requests it adds. *)
Lemma performs_run {A} node token base (m : M A) r acts w :
  performs (layers w) node token base m r acts →
  (run m w).1 = r
  ∧ new_requests w (run m w).2 = requests base token acts
  ∧ after node token base w acts (run m w).2.
Proof.
  intros Hp. destruct (Hp w eq_refl) as (w' & Hw & Ha). unfold run.
  rewrite Hw. simpl. split_and!; [done| |done]. by eapply after_new_requests.
Qed.

(** ** A node and its manifest *)

Module Ex2.

Definition base : string :=
  "https://quay.io/api/v1/repository/openshift/release/manifest/sha256:abc".

Definition node (declared : option (gset string)) : Node :=
  {| version := "1.0.3"; payload := "quay.io/openshift/release@sha256:abc";
     metadata := Some {[ release_channels := "stable" ]};
     channels := {[ "stable" ]}; previous := declared |}.

Definition layer (published : list string) : Layer :=
  {| blob_digest := "sha256:l1";
     blob := {[ release_metadata_path := Some {| meta_previous := Some published |} ]} |}.

Definition other_layer : Layer :=
  {| blob_digest := "sha256:l2"; blob := {[ "etc/os-release" := None ]} |}.

Definition world (ls : list Label) (ly : list Layer) : World :=
  {| labels := ls; layers := ly; stdout := []; sent := [] |}.

End Ex2.

Example manifest_uri_ex : manifest_uri (Ex2.node None) = inr Ex2.base.
Proof. reflexivity. Qed.

Example manifest_uri_docker_ex :
  manifest_uri {| version := "1"; payload := "docker.io/library/x@sha256:abc";
                  metadata := None; channels := ∅; previous := None |}
  = raise (ValueError (non_Quay_pullspec "docker.io/library/x@sha256:abc")).
Proof. reflexivity. Qed.

(** ** The channels label *)

(** The channels block as the specification states it: the label is
    replaced when its value differs from the desired one or is absent, any
    existing label being deleted first, and left alone when they match. *)
Definition claimed_channels_actions (desired : string) (L : gmap string Label)
    : list action :=
  match L !! release_channels with
  | Some l =>
      if String.eqb (value l) desired then []
      else [Delete release_channels; Post (text_label release_channels desired)]
  | None => [Post (text_label release_channels desired)]
  end.

(** C3, at a manifest whose [release.channels] label has an empty value:
    the channels block posts the desired label and deletes nothing, so
    the manifest is left with two [release.channels] labels, where the
    specification deletes the existing label first. The other blocks of
    [sync_node] delete by [label in labels]: at a [previous.add] label
    with an empty value the predecessor block sends the delete. *)
Theorem sync_channels_empty_value_not_deleted :
  let L : gmap string Label :=
    {[ release_channels := text_label release_channels "" ]} in
  let w := Ex2.world [text_label release_channels ""] [] in
  let out := run (sync_channels (Ex2.node None) L (Some "token")) w in
  let L2 : gmap string Label :=
    {[ previous_add := text_label previous_add "";
       previous_remove := text_label previous_remove "*" ]} in
  let w2 := Ex2.world [text_label previous_add "";
                       text_label previous_remove "*"] [] in
  labels_dict (labels w) = L
  ∧ out.1 = ok tt
  ∧ new_requests w out.2
    = [POST (Ex2.base +:+ "/labels") (text_label release_channels "stable") "token"]
  ∧ new_requests w out.2
    ≠ requests Ex2.base (Some "token") (claimed_channels_actions "stable" L)
  ∧ requests Ex2.base (Some "token") (claimed_channels_actions "stable" L)
    = [DELETE (Ex2.base +:+ "/labels/" +:+ release_channels) release_channels "token";
       POST (Ex2.base +:+ "/labels") (text_label release_channels "stable") "token"]
  ∧ labels out.2
    = [text_label release_channels ""; text_label release_channels "stable"]
  ∧ labels_dict (labels w2) = L2
  ∧ new_requests w2 (run (sync_previous (Ex2.node None) L2 (Some "token")) w2).2
    = [DELETE (Ex2.base +:+ "/labels/" +:+ previous_add) previous_add "token"].
Proof. vm_compute. split_and!; first [reflexivity | discriminate]. Qed.

(** What the channels block sends, by the value of the label. When the
    value is not empty and differs from the desired string, the block
    deletes the label and then creates the desired one; when the value is
    not empty and is the desired string, it sends nothing; when the label
    is absent it creates the desired one. The block tests the value and
    not the presence of the label, so a label with an empty value is
    handled as an absent one: this is the case the theorem above
    evaluates. *)
Theorem sync_channels_requests
    (node : Node) (L : gmap string Label) (token : option string)
    (base desired : string) (w : World) :
  manifest_uri node = inr base →
  desired_channels node = inr desired →
  let current := label_value L release_channels in
  let out := run (sync_channels node L token) w in
  out.1 = ok tt
  ∧ (current ≠ "" → current ≠ desired →
     new_requests w out.2
     = requests base token
         [Delete release_channels; Post (text_label release_channels desired)])
  ∧ (current = "" →
     new_requests w out.2
     = requests base token [Post (text_label release_channels desired)])
  ∧ (L !! release_channels = None → current = "")
  ∧ (current ≠ "" → current = desired →
     new_requests w out.2 = [] ∧ labels out.2 = labels w).
Proof.
  intros Hbase Hd current out.
  destruct (performs_run node token base _ _ _ w
              (sync_channels_performs (layers w) node token base Hbase L desired Hd))
    as (Hr & Hq & Ha).
  fold out in Hr, Hq, Ha. unfold channels_actions in Hq, Ha.
  fold current in Hq, Ha. split_and!; [done|..].
  - intros Hne Hdiff. rewrite Hq. apply String.eqb_neq in Hdiff.
    rewrite Hdiff. by destruct current.
  - intros Hempty. rewrite Hq, Hempty. done.
  - intros Hnone. unfold current, label_value. by rewrite Hnone.
  - intros Hne Heq. apply String.eqb_eq in Heq. rewrite Heq in Hq, Ha.
    assert (Py.truthy current = true) as Ht by (by destruct current).
    rewrite Ht in Hq, Ha. rewrite requests_nil in Hq. split; [done|].
    destruct Ha as (_ & Hl & _). by rewrite requests_nil in Hl.
Qed.

Lemma sync_channels_requests_witness :
  let L : gmap string Label :=
    {[ release_channels := text_label release_channels "fast" ]} in
  new_requests (Ex2.world [text_label release_channels "fast"] [])
    (run (sync_channels (Ex2.node None) L (Some "token"))
       (Ex2.world [text_label release_channels "fast"] [])).2
  = requests Ex2.base (Some "token")
      [Delete release_channels; Post (text_label release_channels "stable")].
Proof.
  intros L.
  destruct (sync_channels_requests (Ex2.node None) L (Some "token") Ex2.base
              "stable" (Ex2.world [text_label release_channels "fast"] []))
    as (_ & H & _).
  - reflexivity.
  - reflexivity.
  - apply H; vm_compute; discriminate.
Defined.

(** ** The predecessor labels *)

Lemma previous_plan_declared node L mr declared :
  previous node = Some declared → declared ≠ ∅ →
  previous_plan node L mr
  = match mr with
    | inl e => ([], inl e)
    | inr meta =>
        (declared_actions declared (Py.set (published_previous meta)) L, ok tt)
    end.
Proof.
  intros Hp Hne. unfold previous_plan. rewrite Hp. simpl.
  by rewrite decide_True.
Qed.


(** C1. For a node with declared predecessors the block computes
    [want_removed] as the published predecessors minus the declared ones
    and [want_added] as the declared minus the published ones; for each
    of the two labels, when the set read from the label differs from the
    wanted set, it deletes the label if present and creates it with the
    sorted, comma-joined wanted set unless that set is empty, and it sends
    nothing for the label when the two sets are equal. With the label
    [previous.add] at 1.0.1, the declared predecessors 1.0.1 and 1.0.2 and
    the published predecessor 1.0.1, [want_added] is 1.0.2 and the
    requests for [previous.add] are one delete and one create. *)
Theorem sync_previous_declared
    (node : Node) (L : gmap string Label) (token : option string)
    (base : string) (w : World) (declared : gset string)
    (meta : ReleaseMetadata) :
  manifest_uri node = inr base →
  previous node = Some declared →
  declared ≠ ∅ →
  search_layers node (layers w) = inr meta →
  let published := Py.set (published_previous meta) in
  let want_removed := published ∖ declared in
  let want_added := declared ∖ published in
  let change label want :=
    if decide (parse_versions (label_value L label) = want) then []
    else (if decide (is_Some (L !! label)) then [Delete label] else [])
         ++ (if decide (want = ∅) then []
             else [Post (text_label label (Py.join "," (Py.sorted_set want)))]) in
  let out := run (sync_previous node L token) w in
  out.1 = ok tt
  ∧ new_requests w out.2
    = requests base token
        (change previous_remove want_removed ++ change previous_add want_added)
  ∧ (label_value L previous_add = "1.0.1" → is_Some (L !! previous_add) →
     declared = {[ "1.0.1"; "1.0.2" ]} → published = {[ "1.0.1" ]} →
     want_added = {[ "1.0.2" ]}
     ∧ change previous_add want_added
       = [Delete previous_add; Post (text_label previous_add "1.0.2")]).
Proof.
  intros Hbase Hp Hne Hm published want_removed want_added change out.
  destruct (performs_run node token base _ _ _ w
              (sync_previous_performs (layers w) node token base Hbase L))
    as (Hr & Hq & _).
  fold out in Hr, Hq.
  rewrite (previous_plan_declared _ _ _ declared), Hm in Hr, Hq by done.
  simpl in Hr, Hq.
  assert (∀ label want, change_actions label want L = change label want) as Hch.
  { intros label want. unfold change_actions, change, delete_if_present.
    repeat case_decide; done. }
  split_and!; [done| |].
  - rewrite Hq. unfold declared_actions. by rewrite !Hch.
  - intros Hv Hs Hdecl Hpub.
    assert (want_added = {[ "1.0.2" ]}) as Hwant.
    { unfold want_added. rewrite Hdecl, Hpub. vm_compute. reflexivity. }
    split; [done|]. rewrite Hwant. unfold change. rewrite Hv.
    rewrite (decide_True (P := is_Some (L !! previous_add))) by done.
    vm_compute. reflexivity.
Qed.

Lemma sync_previous_declared_witness :
  let node := Ex2.node (Some {[ "1.0.1"; "1.0.2" ]}) in
  let w := Ex2.world [text_label previous_add "1.0.1"] [Ex2.layer ["1.0.1"]] in
  new_requests w
    (run (sync_previous node (labels_dict (labels w)) (Some "token")) w).2
  = requests Ex2.base (Some "token")
      [Delete previous_add; Post (text_label previous_add "1.0.2")].
Proof.
  intros node w.
  destruct (sync_previous_declared node (labels_dict (labels w)) (Some "token")
              Ex2.base w {[ "1.0.1"; "1.0.2" ]}
              {| meta_previous := Some ["1.0.1"] |})
    as (_ & H & _).
  - reflexivity.
  - reflexivity.
  - vm_compute. discriminate.
  - vm_compute. reflexivity.
  - rewrite H. vm_compute. reflexivity.
Defined.

(** The whole run on that node: one delete and one create, both for
    [previous.add]. *)
Example sync_node_previous_add_ex :
  let node := Ex2.node (Some {[ "1.0.1"; "1.0.2" ]}) in
  let w := Ex2.world [text_label release_channels "stable";
                      text_label previous_add "1.0.1"] [Ex2.layer ["1.0.1"]] in
  run (sync_node node (Some "token")) w
  = (ok tt,
     {| labels := [text_label release_channels "stable";
                   text_label previous_add "1.0.2"];
        layers := [Ex2.layer ["1.0.1"]];
        stdout := [print_changing "1.0.3" "previous.add" ["1.0.1"] ["1.0.2"];
                   print_call "1.0.3" "delete"
                     (Ex2.base +:+ "/labels/" +:+ previous_add);
                   print_call "1.0.3" "post" (Ex2.base +:+ "/labels")];
        sent := [DELETE (Ex2.base +:+ "/labels/" +:+ previous_add) previous_add "token";
                 POST (Ex2.base +:+ "/labels")
                   (text_label previous_add "1.0.2") "token"] |}).
Proof. vm_compute. reflexivity. Qed.



(** The whole run on that node, whose channels label is up to date: one
    create, of [previous.remove] with the wildcard. *)
Example sync_node_wildcard_ex :
  let w := Ex2.world [text_label release_channels "stable"] [Ex2.layer ["1.0.0"]] in
  (run (sync_node (Ex2.node None) (Some "token")) w).1 = ok tt
  ∧ sent (run (sync_node (Ex2.node None) (Some "token")) w).2
    = [POST (Ex2.base +:+ "/labels") (text_label previous_remove "*") "token"].
Proof. vm_compute. split; reflexivity. Qed.

(** ** Dry runs *)

Lemma requests_dry_run base token acts :
  bearer token = None → requests base token acts = [].
Proof. unfold requests. by intros ->. Qed.

(** C8. Without a token, [delete_label] and [post_label] send nothing to
    the registry and leave its labels alone, for every node and label,
    and they print the line with the version of the node, the verb and
    the URI (for a node whose pullspec has no manifest URI they raise
    before they print, but [sync_node] decides nothing for such a node).
    A dry run of [sync_node] sends nothing either, and prints one such
    line for each decision, the decisions being those a run with a token
    sends. *)
Theorem dry_run_sends_nothing
    (node : Node) (token : option string) (w : World) :
  bearer token = None →
  (∀ label,
     let out := run (delete_label node label token) w in
     sent out.2 = sent w ∧ labels out.2 = labels w
     ∧ match manifest_uri node with
       | inr base =>
           out.1 = ok tt
           ∧ stdout out.2
             = stdout w ++ [print_call (version node) "delete"
                              (base +:+ "/labels/" +:+ label)]
       | inl e => out.1 = inl e ∧ stdout out.2 = stdout w
       end)
  ∧ (∀ label,
     let out := run (post_label node label token) w in
     sent out.2 = sent w ∧ labels out.2 = labels w
     ∧ match manifest_uri node with
       | inr base =>
           out.1 = ok tt
           ∧ stdout out.2
             = stdout w ++ [print_call (version node) "post" (base +:+ "/labels")]
       | inl e => out.1 = inl e ∧ stdout out.2 = stdout w
       end)
  ∧ (let out := run (sync_node node token) w in
     sent out.2 = sent w ∧ labels out.2 = labels w
     ∧ match manifest_uri node with
       | inr base =>
           let plan := sync_plan node (labels_dict (labels w))
                         (search_layers node (layers w)) in
           calls (stdout out.2)
           = calls (stdout w) ++ (call_line (version node) base <$> plan.1)
           ∧ ∀ t, Py.truthy t = true →
               new_requests w (run (sync_node node (Some t)) w).2
               = to_request base t <$> plan.1
       | inl e => out.1 = inl e ∧ stdout out.2 = stdout w
       end).
Proof.
  intros Hdry. split_and!.
  - intros label. unfold run, delete_label, bind, lift, print. rewrite Hdry.
    by destruct (manifest_uri node).
  - intros label. unfold run, post_label, bind, lift, print. rewrite Hdry.
    by destruct (manifest_uri node).
  - unfold run. destruct (manifest_uri node) as [e|base] eqn:Hbase.
    + by rewrite (sync_node_non_Quay _ _ e).
    + destruct (sync_node_performs node token base w Hbase)
        as (w' & Hw & Hs & Hl & _ & Hc).
      rewrite Hw. simpl. rewrite requests_dry_run in Hs, Hl by done.
      rewrite app_nil_r in Hs. split_and!; [done..|].
      intros t Ht.
      destruct (sync_node_performs node (Some t) base w Hbase)
        as (w'' & Hw' & Ha).
      rewrite Hw'. simpl. rewrite (after_new_requests _ _ _ _ _ _ Ha).
      unfold requests. simpl. by rewrite Ht.
Qed.

Lemma dry_run_sends_nothing_witness :
  let node := Ex2.node (Some {[ "1.0.1"; "1.0.2" ]}) in
  let w := Ex2.world [text_label previous_add "1.0.1"] [Ex2.layer ["1.0.1"]] in
  sent (run (sync_node node None) w).2 = []
  ∧ stdout (run (delete_label node previous_add None) w).2
    = [print_call "1.0.3" "delete" (Ex2.base +:+ "/labels/" +:+ previous_add)].
Proof.
  intros node w.
  destruct (dry_run_sends_nothing node None w) as (Hd & _ & Hs & _).
  - reflexivity.
  - split; [exact Hs|]. destruct (Hd previous_add) as (_ & _ & _ & Hout).
    exact Hout.
Defined.

(** ** get_release_metadata *)

(** The search as the specification states it: from the newest layer
    backwards, the first layer that holds the metadata file wins, and no
    layer holding it is an error. *)
Fixpoint claimed_search (node : Node) (newest_first : list Layer)
    : result ReleaseMetadata :=
  match newest_first with
  | [] => raise (ValueError (no_release_metadata (version node)))
  | layer :: older =>
      match blob layer !! release_metadata_path with
      | Some (Some meta) => ok meta
      | Some None => raise (ValueError json_decode_error)
      | None => claimed_search node older
      end
  end.

Lemma read_layer_never_continues node layer :
  read_layer node layer ≠ inr Continue.
Proof.
  unfold read_layer.
  destruct (negb _); [done|].
  by destruct (blob layer !! release_metadata_path) as [[meta|]|].
Qed.

(** Only the newest layer is read. *)
Lemma search_layers_newest node older newest :
  search_layers node (older ++ [newest])
  = match read_layer node newest with
    | inl e => inl e
    | inr (Return meta) => inr meta
    | inr Continue => search_layers node older
    end.
Proof. unfold search_layers. by rewrite reverse_snoc. Qed.

(** A pullspec outside [quay.io/] is refused, and so is a manifest
    without layers. *)
Lemma get_release_metadata_non_Quay node name digest w :
  Py.split1 "@" (payload node) = [name; digest] →
  Py.startswith name "quay.io/" = false →
  (run (get_release_metadata node) w).1
  = raise (ValueError (non_Quay_pullspec (payload node))).
Proof.
  intros Hsplit Hname. unfold run, get_release_metadata, bind, lift, manifest_uri.
  by rewrite Hsplit, Hname.
Qed.

Lemma get_release_metadata_no_layers node base w :
  manifest_uri node = inr base → layers w = [] →
  (run (get_release_metadata node) w).1
  = raise (ValueError (no_release_metadata (version node))).
Proof.
  intros Hbase Hly. unfold run, get_release_metadata, bind, lift.
  by rewrite Hbase, Hly.
Qed.

(** C9, on a manifest whose newest layer lacks the metadata file and whose
    older layer holds it: [get_release_metadata] raises the [KeyError] of
    [extractfile] on the newest layer, where the search the specification
    describes returns the metadata of the older layer. *)
Theorem get_release_metadata_newest_layer_only :
  let node := Ex2.node None in
  let w := Ex2.world [] [Ex2.layer ["1.0.0"]; Ex2.other_layer] in
  (run (get_release_metadata node) w).1 = raise (KeyError release_metadata_path)
  ∧ claimed_search node (reverse (layers w))
    = ok {| meta_previous := Some ["1.0.0"] |}.
Proof. vm_compute. split; reflexivity. Qed.

(** ** Reading back a label that was written *)

(** [c in s] *)
Fixpoint has_char (c : ascii) (s : string) : bool :=
  match s with
  | EmptyString => false
  | String c' s' => orb (Ascii.eqb c' c) (has_char c s')
  end.

(** A version a comma-joined label can hold: not empty, and no comma. *)
Definition version_ok (v : string) : bool :=
  andb (Py.truthy v) (negb (has_char "," v)).

Definition versions_ok (s : gset string) : bool :=
  forallb version_ok (elements s).

Lemma versions_ok_elem s v : versions_ok s = true → v ∈ s → version_ok v = true.
Proof.
  unfold versions_ok. rewrite forallb_forall. intros H Hv. apply H.
  by apply list_elem_of_In, elem_of_elements.
Qed.

Lemma split_not_nil sep s : Py.split sep s ≠ [].
Proof.
  destruct s as [|c s]; simpl; [done|].
  destruct (Ascii.eqb c sep); [done|]. by destruct (Py.split sep s).
Qed.

Lemma split_no_sep sep s : has_char sep s = false → Py.split sep s = [s].
Proof.
  induction s as [|c s IH]; simpl; [done|].
  intros [Hc Hs]%orb_false_iff. rewrite Hc, (IH Hs). done.
Qed.

Lemma split_append sep x s :
  has_char sep x = false →
  Py.split sep (x +:+ String sep s) = x :: Py.split sep s.
Proof.
  induction x as [|c x IH]; simpl.
  - intros _. by rewrite Ascii.eqb_refl.
  - intros [Hc Hx]%orb_false_iff. rewrite Hc, (IH Hx). done.
Qed.

Lemma split_join l :
  l ≠ [] → Forall (λ v, has_char "," v = false) l →
  Py.split "," (Py.join "," l) = l.
Proof.
  induction l as [|x l IH]; [done|]. intros _ Hl.
  apply Forall_cons in Hl as [Hx Hl]. destruct l as [|y l].
  - simpl. by apply split_no_sep.
  - change (Py.join "," (x :: y :: l))
      with (x +:+ String "," (Py.join "," (y :: l))).
    rewrite split_append by done. f_equal. by apply IH.
Qed.

Lemma version_ok_spec v :
  version_ok v = true ↔ Py.truthy v = true ∧ has_char "," v = false.
Proof.
  unfold version_ok. rewrite andb_true_iff, negb_true_iff. done.
Qed.

Lemma filter_truthy_id (l : list string) :
  Forall (λ v, Py.truthy v = true) l →
  filter (λ version, Py.truthy version) l = l.
Proof.
  induction 1 as [|v l Hv Hl IH]; [done|].
  rewrite filter_cons_True by (by rewrite Hv). by rewrite IH.
Qed.

(** The set read from a label holding the sorted, comma-joined [want] is
    [want]. *)
Lemma parse_versions_join (want : gset string) :
  versions_ok want = true →
  parse_versions (Py.join "," (Py.sorted_set want)) = want.
Proof.
  intros Hok. unfold parse_versions, Py.set.
  assert (Forall (λ v, version_ok v = true) (Py.sorted_set want)) as Hall.
  { apply Forall_forall. intros v Hv. apply (versions_ok_elem want); [done|].
    by apply elem_of_sorted_set. }
  destruct (Py.sorted_set want) as [|x l] eqn:Hs.
  - simpl. apply set_eq. intros v. rewrite <- (elem_of_sorted_set want), Hs.
    set_solver.
  - rewrite split_join; [|done|].
    2: { eapply Forall_impl; [exact Hall|]. intros v Hv.
         by apply version_ok_spec in Hv as [_ ?]. }
    rewrite filter_truthy_id.
    2: { eapply Forall_impl; [exact Hall|]. intros v Hv.
         by apply version_ok_spec in Hv as [? _]. }
    rewrite <- Hs. unfold Py.sorted_set, Py.sorted.
    rewrite merge_sort_Permutation. apply list_to_set_elements_L.
Qed.

Lemma parse_versions_empty : parse_versions "" = ∅.
Proof. vm_compute. reflexivity. Qed.

(** ** The labels after the decisions *)

Definition action_key (a : action) : string :=
  match a with
  | Delete k => k
  | Post l => key l
  end.

(** The decisions, applied to the dictionary of the labels. *)
Definition apply_action (d : gmap string Label) (a : action) : gmap string Label :=
  match a with
  | Delete k => delete k d
  | Post l => <[key l := l]> d
  end.

Definition apply_actions (acts : list action) (d : gmap string Label)
    : gmap string Label :=
  foldl apply_action d acts.

Lemma labels_dict_snoc ls l :
  labels_dict (ls ++ [l]) = <[key l := l]> (labels_dict ls).
Proof. unfold labels_dict. by rewrite foldl_snoc. Qed.

Lemma labels_dict_delete ls k :
  labels_dict (filter (λ l, key l ≠ k) ls) = delete k (labels_dict ls).
Proof.
  induction ls as [|l ls IH] using rev_ind.
  - unfold labels_dict. simpl. by rewrite delete_empty.
  - rewrite filter_app, labels_dict_snoc.
    destruct (decide (key l = k)) as [Heq|Hne].
    + rewrite filter_cons_False by (by intros []). rewrite filter_nil, app_nil_r.
      rewrite IH, <- Heq. by rewrite delete_insert_eq.
    + rewrite filter_cons_True by done. rewrite filter_nil.
      rewrite labels_dict_snoc, IH. by rewrite delete_insert_ne.
Qed.

Lemma labels_dict_apply base t acts ls :
  labels_dict (apply_requests (to_request base t <$> acts) ls)
  = apply_actions acts (labels_dict ls).
Proof.
  revert ls. induction acts as [|a acts IH]; intros ls; [done|].
  unfold apply_requests, apply_actions in *. simpl. rewrite IH. f_equal.
  destruct a as [k|l]; simpl.
  - apply labels_dict_delete.
  - apply labels_dict_snoc.
Qed.

Lemma apply_actions_app a1 a2 d :
  apply_actions (a1 ++ a2) d = apply_actions a2 (apply_actions a1 d).
Proof. apply foldl_app. Qed.

(** Decisions on other labels leave a label as it is. *)
Lemma apply_actions_other acts d k :
  Forall (λ a, action_key a ≠ k) acts →
  apply_actions acts d !! k = d !! k.
Proof.
  revert d. induction acts as [|a acts IH]; intros d Hk; [done|].
  apply Forall_cons in Hk as [Ha Hk]. unfold apply_actions in *. simpl.
  rewrite IH by done. destruct a as [k'|l]; simpl in *.
  - by rewrite lookup_delete_ne.
  - by rewrite lookup_insert_ne.
Qed.

(** What the decisions make of a label depends on that label alone. *)
Lemma apply_actions_ext acts d d' k :
  d !! k = d' !! k →
  apply_actions acts d !! k = apply_actions acts d' !! k.
Proof.
  revert d d'. induction acts as [|a acts IH]; intros d d' Hk; [done|].
  unfold apply_actions in *. simpl. apply IH.
  destruct a as [k'|l]; simpl.
  - destruct (decide (k' = k)) as [->|].
    + by rewrite !lookup_delete_eq.
    + by rewrite !lookup_delete_ne.
  - destruct (decide (key l = k)) as [<-|].
    + by rewrite !lookup_insert_eq.
    + by rewrite !lookup_insert_ne.
Qed.

(** ** Blocks of decisions that converge *)

(** [B] decides on the label [k] alone, from that label alone, and
    decides nothing once its decisions are applied. *)
Record block_on (k : string) (B : gmap string Label → list action) : Prop := {
  block_ext L L' : L !! k = L' !! k → B L = B L';
  block_keys L : Forall (λ a, action_key a = k) (B L);
  block_converges L : B (apply_actions (B L) L) = [];
}.

Definition decisions (bs : list (string * (gmap string Label → list action)))
    (L : gmap string Label) : list action :=
  bs ≫= λ b, b.2 L.

Lemma decisions_other bs L k :
  k ∉ bs.*1 → Forall (λ b, block_on b.1 b.2) bs →
  Forall (λ a, action_key a ≠ k) (decisions bs L).
Proof.
  induction bs as [|[k' B] bs IH]; intros Hk Hbs; [constructor|].
  apply Forall_cons in Hbs as [HB Hbs]. rewrite fmap_cons in Hk.
  apply not_elem_of_cons in Hk as [Hne Hk]. unfold decisions.
  rewrite bind_cons. apply Forall_app. split; [|by apply IH].
  simpl in *. eapply Forall_impl; [apply (block_keys _ _ HB)|].
  simpl. by intros a ->.
Qed.

Lemma decisions_lookup bs L0 M k B :
  NoDup bs.*1 → Forall (λ b, block_on b.1 b.2) bs → (k, B) ∈ bs →
  apply_actions (decisions bs L0) M !! k = apply_actions (B L0) M !! k.
Proof.
  revert M. induction bs as [|[k' B'] bs IH]; intros M Hnd Hbs Hin.
  { by apply elem_of_nil in Hin. }
  rewrite fmap_cons in Hnd. apply NoDup_cons in Hnd as [Hk' Hnd].
  pose proof Hbs as Hall. apply Forall_cons in Hbs as [HB' Hbs].
  unfold decisions. rewrite bind_cons, apply_actions_app. simpl in *.
  apply elem_of_cons in Hin as [[= -> ->]|Hin].
  - by apply apply_actions_other, decisions_other.
  - fold (decisions bs L0). rewrite IH by done.
    apply apply_actions_ext, apply_actions_other.
    eapply Forall_impl; [apply (block_keys _ _ HB')|].
    simpl. intros a -> ->. apply Hk'.
    apply (list_elem_of_fmap_2 fst) in Hin. done.
Qed.

(** Blocks on different labels, decided from one reading of the labels,
    decide nothing on a second reading. *)
Lemma decisions_converge bs L :
  NoDup bs.*1 → Forall (λ b, block_on b.1 b.2) bs →
  decisions bs (apply_actions (decisions bs L) L) = [].
Proof.
  intros Hnd Hbs.
  assert (∀ b, b ∈ bs → b.2 (apply_actions (decisions bs L) L) = []) as Hnil.
  { intros [k B] Hin. simpl.
    pose proof (proj1 (Forall_forall _ _) Hbs _ Hin) as HB. simpl in HB.
    rewrite (block_ext _ _ HB _ (apply_actions (B L) L)).
    - apply (block_converges _ _ HB).
    - by apply decisions_lookup. }
  unfold decisions at 1. revert Hnil. generalize (decisions bs L).
  intros acts. clear. induction bs as [|b bs IH]; intros Hnil; [done|].
  rewrite bind_cons, Hnil by (by left). simpl. apply IH.
  intros b' Hb'. apply Hnil. by right.
Qed.

Lemma label_value_ext (L L' : gmap string Label) k :
  L !! k = L' !! k → label_value L k = label_value L' k.
Proof. unfold label_value. by intros ->. Qed.

Lemma delete_if_present_ext (L L' : gmap string Label) k :
  L !! k = L' !! k → delete_if_present L k = delete_if_present L' k.
Proof. unfold delete_if_present. by intros ->. Qed.

Lemma delete_if_present_keys L k :
  Forall (λ a, action_key a = k) (delete_if_present L k).
Proof. unfold delete_if_present. case_decide; by repeat constructor. Qed.

Lemma lookup_apply_delete_if_present L k :
  apply_actions (delete_if_present L k) L !! k = None.
Proof.
  unfold delete_if_present. case_decide as Hs; simpl.
  - apply lookup_delete_eq.
  - by apply eq_None_not_Some.
Qed.

Lemma delete_block k : block_on k (λ L, delete_if_present L k).
Proof.
  split.
  - intros L L'. apply delete_if_present_ext.
  - intros L. apply delete_if_present_keys.
  - intros L. unfold delete_if_present at 1.
    rewrite lookup_apply_delete_if_present. rewrite decide_False; [done|].
    by intros [].
Qed.

Lemma channels_block desired :
  desired ≠ "" → block_on release_channels (channels_actions desired).
Proof.
  intros Hd. split.
  - intros L L' HL. unfold channels_actions.
    by rewrite (label_value_ext L L').
  - intros L. unfold channels_actions.
    destruct (Py.truthy _); [destruct (String.eqb _ _)|];
      by repeat constructor.
  - intros L. unfold channels_actions at 1 2.
    assert (Py.truthy desired = true) as Ht by (by destruct desired).
    destruct (Py.truthy (label_value L release_channels)) eqn:Hc.
    + destruct (String.eqb (label_value L release_channels) desired) eqn:Heq.
      * simpl. by rewrite Hc, Heq.
      * unfold label_value. simpl. rewrite lookup_insert_eq. simpl.
        by rewrite Ht, String.eqb_refl.
    + unfold label_value. simpl. rewrite lookup_insert_eq. simpl.
      by rewrite Ht, String.eqb_refl.
Qed.

Lemma change_block label want :
  versions_ok want = true → block_on label (change_actions label want).
Proof.
  intros Hok. split.
  - intros L L' HL. unfold change_actions.
    by rewrite (label_value_ext L L'), (delete_if_present_ext L L').
  - intros L. unfold change_actions. case_decide; [|constructor].
    apply Forall_app. split; [apply delete_if_present_keys|].
    case_decide; by repeat constructor.
  - intros L. unfold change_actions at 1 2.
    destruct (decide (parse_versions (label_value L label) ≠ want)) as [Hd|Hd].
    + rewrite decide_False; [done|]. intros Hne. apply Hne. clear Hne.
      rewrite apply_actions_app. destruct (decide (want ≠ ∅)) as [Hw|Hw].
      * unfold label_value. simpl. rewrite lookup_insert_eq. simpl.
        by apply parse_versions_join.
      * apply dec_stable in Hw. simpl. unfold label_value.
        rewrite lookup_apply_delete_if_present.
        by rewrite parse_versions_empty.
    + simpl. by rewrite decide_False.
Qed.

(** The wildcard for a node without declared predecessors. *)
Definition wildcard_actions (mr : result ReleaseMetadata)
    (L : gmap string Label) : list action :=
  if String.eqb (label_value L previous_remove) "*" then []
  else match mr with
       | inl _ => []
       | inr meta => undeclared_remove_actions (published_previous meta) L
       end.

Lemma wildcard_block mr : block_on previous_remove (wildcard_actions mr).
Proof.
  split.
  - intros L L' HL. unfold wildcard_actions, undeclared_remove_actions.
    by rewrite (label_value_ext L L'), (delete_if_present_ext L L').
  - intros L. unfold wildcard_actions, undeclared_remove_actions.
    destruct (String.eqb _ _); [constructor|].
    destruct mr as [e|meta]; [constructor|].
    destruct (published_previous meta); [constructor|].
    apply Forall_app. split; [apply delete_if_present_keys|].
    by repeat constructor.
  - intros L. unfold wildcard_actions at 1 2.
    destruct (String.eqb (label_value L previous_remove) "*") eqn:Hstar.
    + simpl. by rewrite Hstar.
    + destruct mr as [e|meta]; simpl.
      * by rewrite Hstar.
      * destruct (published_previous meta) as [|v vs].
        -- simpl. by rewrite Hstar.
        -- unfold undeclared_remove_actions. rewrite apply_actions_app.
           unfold label_value at 1. simpl. by rewrite lookup_insert_eq.
Qed.

(** ** Idempotence *)

(** The versions a run writes into [previous.remove] and [previous.add]:
    for a node with declared predecessors whose release metadata can be
    read, those that are published and not declared, and those that are
    declared and not published. *)
Definition written_versions (node : Node) (ly : list Layer) : gset string :=
  let declared := default ∅ (previous node) in
  if decide (declared ≠ ∅) then
    match search_layers node ly with
    | inl _ => ∅
    | inr meta =>
        let published := Py.set (published_previous meta) in
        (published ∖ declared) ∪ (declared ∖ published)
    end
  else ∅.

(** The blocks of a run, each with its label. *)
Definition sync_blocks (node : Node) (desired : string)
    (mr : result ReleaseMetadata)
    : list (string * (gmap string Label → list action)) :=
  let declared := default ∅ (previous node) in
  [ (release_channels, channels_actions desired);
    (next_add, λ L, delete_if_present L next_add);
    (next_remove, λ L, delete_if_present L next_remove) ]
  ++ (if decide (declared ≠ ∅) then
        match mr with
        | inl _ => []
        | inr meta =>
            let published := Py.set (published_previous meta) in
            [ (previous_remove, change_actions previous_remove (published ∖ declared));
              (previous_add, change_actions previous_add (declared ∖ published)) ]
        end
      else
        [ (previous_add, λ L, delete_if_present L previous_add);
          (previous_remove, wildcard_actions mr) ]).

Lemma sync_plan_decisions node L mr desired :
  desired_channels node = inr desired →
  (sync_plan node L mr).1 = decisions (sync_blocks node desired mr) L.
Proof.
  intros Hd. unfold sync_plan, sync_blocks, previous_plan, decisions.
  rewrite Hd. rewrite bind_app. simpl. unfold next_actions.
  rewrite <- !app_assoc. do 3 f_equal.
  destruct (decide (default ∅ (previous node) ≠ ∅)).
  - destruct mr as [e|meta]; simpl; [done|].
    unfold declared_actions. by rewrite app_nil_r.
  - simpl. unfold wildcard_actions, undeclared_add_actions.
    destruct (String.eqb (label_value L previous_remove) "*"); simpl.
    + by rewrite ?app_nil_r.
    + destruct mr as [e|meta]; simpl; by rewrite ?app_nil_r.
Qed.

Lemma versions_ok_subseteq (s s' : gset string) :
  s ⊆ s' → versions_ok s' = true → versions_ok s = true.
Proof.
  intros Hsub Hok. unfold versions_ok. apply forallb_forall. intros v Hv.
  apply (versions_ok_elem s'); [done|]. apply Hsub.
  by apply elem_of_elements, list_elem_of_In.
Qed.

Lemma sync_blocks_converge node desired ly :
  desired ≠ "" →
  versions_ok (written_versions node ly) = true →
  NoDup (sync_blocks node desired (search_layers node ly)).*1
  ∧ Forall (λ b, block_on b.1 b.2)
      (sync_blocks node desired (search_layers node ly)).
Proof.
  intros Hd Hok. unfold sync_blocks, written_versions in *.
  destruct (decide (default ∅ (previous node) ≠ ∅)).
  - destruct (search_layers node ly) as [e|meta]; simpl.
    + split; [compute_done|].
      repeat (apply Forall_cons_2; [simpl|]); try apply Forall_nil_2;
        [by apply channels_block | apply delete_block..].
    + split; [compute_done|].
      repeat (apply Forall_cons_2; [simpl|]); try apply Forall_nil_2;
        [ by apply channels_block | apply delete_block | apply delete_block
        | apply change_block | apply change_block ];
        (eapply versions_ok_subseteq; [|exact Hok]);
        [apply union_subseteq_l | apply union_subseteq_r].
  - split; [compute_done|].
    repeat (apply Forall_cons_2; [simpl|]); try apply Forall_nil_2;
      [ by apply channels_block | apply delete_block | apply delete_block
      | apply delete_block | apply wildcard_block ].
Qed.

Lemma new_requests_same w : new_requests w w = [].
Proof. unfold new_requests. apply drop_all. Qed.

(** C4, amended. When the desired channels string of the node is not
    empty and the versions a run writes into [previous.remove] and
    [previous.add] are not empty and hold no comma, a second run of
    [sync_node] with the token, on the registry the first run left, with
    the same layers, sends no request, leaves the labels as they are and
    prints no delete or post line. *)
Theorem sync_node_idempotent
    (node : Node) (token : option string) (t : string) (w : World) :
  bearer token = Some t →
  (∀ desired, desired_channels node = inr desired → desired ≠ "") →
  versions_ok (written_versions node (layers w)) = true →
  let first := run (sync_node node token) w in
  let second := run (sync_node node token) first.2 in
  new_requests first.2 second.2 = []
  ∧ labels second.2 = labels first.2
  ∧ calls (stdout second.2) = calls (stdout first.2).
Proof.
  intros Ht Hdesired Hok first second. subst first second. unfold run.
  destruct (manifest_uri node) as [e|base] eqn:Hbase.
  { rewrite !(sync_node_non_Quay _ _ e) by done. simpl.
    by rewrite new_requests_same. }
  destruct (sync_node_performs node token base w Hbase) as (w1 & Hw1 & Ha1).
  rewrite Hw1. simpl.
  destruct (sync_node_performs node token base w1 Hbase) as (w2 & Hw2 & Ha2).
  rewrite Hw2. simpl.
  assert ((sync_plan node (labels_dict (labels w1))
             (search_layers node (layers w1))).1 = []) as Hnil.
  { destruct Ha1 as (_ & Hl1 & Hy1 & _). rewrite Hy1, Hl1.
    unfold requests. rewrite Ht, labels_dict_apply.
    destruct (desired_channels node) as [e|desired] eqn:Hd.
    - unfold sync_plan. by rewrite Hd.
    - rewrite !(sync_plan_decisions _ _ _ desired) by done.
      destruct (sync_blocks_converge node desired (layers w))
        as [Hnd Hbs]; [by apply Hdesired|done|].
      by apply decisions_converge. }
  rewrite Hnil in Ha2. destruct Ha2 as (Hs2 & Hl2 & _ & Hc2).
  rewrite requests_nil in Hs2, Hl2. simpl in Hl2, Hc2.
  rewrite app_nil_r in Hs2, Hc2. split_and!; [|done..].
  unfold new_requests. rewrite Hs2. apply drop_all.
Qed.

Lemma sync_node_idempotent_witness :
  let node := Ex2.node (Some {[ "1.0.1"; "1.0.2" ]}) in
  let w := Ex2.world [text_label previous_add "1.0.1";
                      text_label next_add "1.0.4"] [Ex2.layer ["1.0.0"; "1.0.1"]] in
  sent (run (sync_node node (Some "token")) w).2 ≠ []
  ∧ new_requests (run (sync_node node (Some "token")) w).2
      (run (sync_node node (Some "token"))
         (run (sync_node node (Some "token")) w).2).2 = [].
Proof.
  intros node w. split; [vm_compute; discriminate|].
  destruct (sync_node_idempotent node (Some "token") "token" w) as (H & _).
  - reflexivity.
  - intros desired Hd. vm_compute in Hd. injection Hd as <-. discriminate.
  - vm_compute. reflexivity.
  - exact H.
Defined.

(** C4, counterexample. A published predecessor that holds a comma is
    written into [previous.remove] and read back as two versions, so the
    second run replaces the label again. *)
Lemma sync_node_idempotent_counterexample :
  let node := Ex2.node (Some {[ "1.0.1" ]}) in
  let w := Ex2.world [text_label release_channels "stable";
                      text_label previous_add "1.0.1"]
             [Ex2.layer ["1.0.0,1.0.2"]] in
  let first := run (sync_node node (Some "token")) w in
  let second := run (sync_node node (Some "token")) first.2 in
  first.1 = ok tt
  ∧ layers first.2 = layers w
  ∧ new_requests first.2 second.2
    = [DELETE (Ex2.base +:+ "/labels/" +:+ previous_remove) previous_remove "token";
       POST (Ex2.base +:+ "/labels")
         (text_label previous_remove "1.0.0,1.0.2") "token"]
  ∧ new_requests first.2 second.2 ≠ [].
Proof. vm_compute. split_and!; [reflexivity..|discriminate]. Qed.

(** * Further properties of the loader *)

#[local] Set Warnings "-clear-no-such-hyp".

(** ** What [load_edges] does to the nodes *)

(** The file tree has an edge file from [u] to [v]. *)
Definition edge_in (fs : list (string * File Edge)) (u v : string) : Prop :=
  ∃ root f e, (root, f) ∈ fs ∧ edge_file f e ∧ from_ e = u ∧ to_ e = v.

(** [n'] is [n] with the predecessors of [v] the files [fs] declare. *)
Record node_with_edges (fs : list (string * File Edge)) (v : string)
    (n n' : Node) : Prop := {
  kept_version : version n' = version n;
  kept_payload : payload n' = payload n;
  kept_metadata : metadata n' = metadata n;
  kept_channels : channels n' = channels n;
  added_previous u :
    u ∈ default ∅ (previous n') ↔ u ∈ default ∅ (previous n) ∨ edge_in fs u v;
  previous_not_empty : previous n ≠ Some ∅ → previous n' ≠ Some ∅;
  previous_absent : previous n' = None ↔ previous n = None ∧ ∀ u, ¬ edge_in fs u v;
}.

Lemma edge_in_nil u v : ¬ edge_in [] u v.
Proof. intros (?&?&?&Hin&_). by apply elem_of_nil in Hin. Qed.

Lemma edge_in_cons_skip root f fs u v :
  Py.endswith (filename f) ".json" = false →
  edge_in ((root, f) :: fs) u v ↔ edge_in fs u v.
Proof.
  intros Hskip. split; intros (r & g & e & Hin & Hg & Hu & Hv).
  - apply elem_of_cons in Hin as [[= -> ->]|Hin].
    + destruct Hg as [Hg _]. congruence.
    + by exists r, g, e.
  - exists r, g, e. split_and!; [by right|done..].
Qed.

Lemma edge_in_cons_edge root f e fs u v :
  edge_file f e →
  edge_in ((root, f) :: fs) u v ↔ (from_ e = u ∧ to_ e = v) ∨ edge_in fs u v.
Proof.
  intros He. split.
  - intros (r & g & e' & Hin & Hg & Hu & Hv).
    apply elem_of_cons in Hin as [[= -> ->]|Hin].
    + left. by rewrite (edge_file_inj _ _ _ He Hg).
    + right. by exists r, g, e'.
  - intros [[Hu Hv]|(r & g & e' & Hin & Hg & Hu & Hv)].
    + exists root, f, e. split_and!; [by left|done..].
    + exists r, g, e'. split_and!; [by right|done..].
Qed.

Lemma node_with_edges_nil v n : node_with_edges [] v n n.
Proof.
  split; try done.
  - intros u. split; [by left|]. intros [?|H]; [done|]. by apply edge_in_nil in H.
  - split; [|by intros [? _]]. intros H. split; [done|]. intros u.
    apply edge_in_nil.
Qed.

(** One more file in front: the node after that file, then the rest. *)
Lemma node_with_edges_step root f fs v n n1 n' :
  (Py.endswith (filename f) ".json" = false ∧ n1 = n)
  ∨ (∃ e, edge_file f e ∧ to_ e ≠ v ∧ n1 = n)
  ∨ (∃ e, edge_file f e ∧ to_ e = v
          ∧ n1 = set_previous n (match previous n with
                                 | Some p => p ∪ {[from_ e]}
                                 | None => {[from_ e]}
                                 end)) →
  node_with_edges fs v n1 n' →
  node_with_edges ((root, f) :: fs) v n n'.
Proof.
  intros Hstep [Hv Hp Hm Hc Hadd Hne Habs].
  destruct Hstep as [[Hskip ->]|[(e & He & Hto & ->)|(e & He & Hto & ->)]].
  - split; try done.
    + intros u. by rewrite Hadd, edge_in_cons_skip.
    + rewrite Habs. by setoid_rewrite edge_in_cons_skip.
  - split; try done.
    + intros u. rewrite Hadd, (edge_in_cons_edge root f e) by done. naive_solver.
    + rewrite Habs. setoid_rewrite (edge_in_cons_edge root f e); [|done].
      naive_solver.
  - simpl in *. split; try done.
    + intros u. rewrite Hadd, (edge_in_cons_edge root f e) by done.
      destruct (previous n) as [p|]; simpl; set_solver.
    + intros _. apply Hne. destruct (previous n) as [p|]; intros [= Hp'];
        set_solver.
    + split.
      * intros Hn'. apply Habs in Hn' as [[=] _].
      * intros [_ Hno]. exfalso. apply (Hno (from_ e)).
        apply (edge_in_cons_edge root f e); [done|]. by left.
Qed.

Lemma load_edges_seq_nodes fs st0 st :
  load_edges_seq fs st0 = inr st →
  (∀ v, is_Some (st.2 !! v) ↔ is_Some (st0.2 !! v))
  ∧ ∀ v n n', st0.2 !! v = Some n → st.2 !! v = Some n' →
      node_with_edges fs v n n'.
Proof.
  revert st0. induction fs as [|[root f] fs IH]; intros st0 H; simpl in H.
  - injection H as <-. split; [done|]. intros v n n' Hn Hn'.
    assert (n' = n) as -> by congruence. apply node_with_edges_nil.
  - apply rbind_inr in H as (st1 & Hf & H). apply IH in H as [Hdom Hnodes].
    apply load_edge_file_inr in Hf as [[Hskip ->]|(e & He & Hf)].
    + split; [done|]. intros v n n' Hn Hn'.
      eapply node_with_edges_step; [by left|]. by apply Hnodes.
    + destruct st0 as [edges nodes], st1 as [edges1 nodes1].
      apply load_edge_inr in Hf as (_ & _ & fn & tn & Hfn & Htn & _ & ->).
      simpl in *. split.
      * intros v. rewrite Hdom. destruct (decide (to_ e = v)) as [<-|Hne].
        -- rewrite lookup_insert_eq, Htn. split; eauto.
        -- by rewrite lookup_insert_ne.
      * intros v n n' Hn Hn'. destruct (decide (to_ e = v)) as [<-|Hne].
        -- eapply node_with_edges_step.
           ++ right. right. exists e. split_and!; [done..|reflexivity].
           ++ apply Hnodes; [|done]. rewrite lookup_insert_eq.
              assert (tn = n) as -> by congruence. by destruct (previous n).
        -- eapply node_with_edges_step.
           ++ right. left. exists e. by split_and!.
           ++ apply Hnodes; [|done]. by rewrite lookup_insert_ne.
Qed.

(** X1. [load_edges] returns the nodes it was given, each with the same
    version, payload, metadata and channels, and adds no node; the
    predecessors of a node are those it had and the [from] of every edge
    file whose [to] is the node; [previous] stays absent for a node no
    edge leads to, and is never left empty. *)
Theorem load_edges_previous
    (directory : Walk Edge) (nodes nodes' : gmap string Node) :
  load_edges directory nodes = inr nodes' →
  dom nodes' = dom nodes
  ∧ ∀ v n, nodes !! v = Some n →
      ∃ n', nodes' !! v = Some n'
        ∧ version n' = version n ∧ payload n' = payload n
        ∧ metadata n' = metadata n ∧ channels n' = channels n
        ∧ (∀ u, u ∈ default ∅ (previous n')
                ↔ u ∈ default ∅ (previous n)
                  ∨ edge_in (walk_files directory) u v)
        ∧ (previous n' = None
           ↔ previous n = None ∧ ∀ u, ¬ edge_in (walk_files directory) u v)
        ∧ (previous n ≠ Some ∅ → previous n' ≠ Some ∅).
Proof.
  rewrite load_edges_unfold. intros H.
  apply rbind_inr in H as (st & H & [= <-]).
  apply load_edges_seq_nodes in H as [Hdom Hnodes]. simpl in *. split.
  - apply set_eq. intros v. by rewrite !elem_of_dom.
  - intros v n Hn. destruct (proj2 (Hdom v)) as [n' Hn']; [by eauto|].
    exists n'. split; [done|].
    destruct (Hnodes v n n' Hn Hn') as [? ? ? ? ? ? ?]. by split_and!.
Qed.

Lemma load_edges_previous_witness :
  ∃ n', load_edges [("./edges", [Ex.edge_json "a.json" Ex.upgrade])] Ex.nodes
        = inr (<["4.1.1" := n']> Ex.nodes)
        ∧ channels n' = {[ "fast" ]} ∧ previous n' ≠ None.
Proof.
  destruct (load_edges_previous [("./edges", [Ex.edge_json "a.json" Ex.upgrade])]
              Ex.nodes
              (<["4.1.1" := set_previous (Ex.node "4.1.1" {[ "fast" ]})
                              {[ "4.1.0" ]}]> Ex.nodes)) as [_ H].
  - vm_compute. reflexivity.
  - destruct (H "4.1.1" (Ex.node "4.1.1" {[ "fast" ]})) as
      (n' & Hn' & _ & _ & _ & Hc & _ & Habs & _).
    + vm_compute. reflexivity.
    + rewrite lookup_insert_eq in Hn'. injection Hn' as <-.
      eexists. split_and!; [vm_compute; reflexivity|exact Hc|discriminate].
Defined.

(** ** When [load_edges] succeeds *)

(** The edges of the [.json] files that parse, in the order of the walk. *)
Definition parsed_edges (fs : list (string * File Edge)) : list Edge :=
  fs ≫= λ rf, if Py.endswith (filename rf.2) ".json"
              then match json rf.2 with Some e => [e] | None => [] end
              else [].

(** Every [.json] file is a JSON document. *)
Definition all_parse {A} (fs : list (string * File A)) : Prop :=
  ∀ root f, (root, f) ∈ fs → Py.endswith (filename f) ".json" = true →
            is_Some (json f).

(** The edge joins two of the nodes on the channels they share. *)
Definition joins (nodes : gmap string Node) (e : Edge) : Prop :=
  ∃ from_node to_node,
    nodes !! from_ e = Some from_node ∧ nodes !! to_ e = Some to_node ∧
    Py.set (edge_channels e) = channels from_node ∩ channels to_node.

Lemma joins_channels nodes nodes' e :
  (∀ v, channels <$> nodes' !! v = channels <$> nodes !! v) →
  joins nodes e → joins nodes' e.
Proof.
  intros Hc (fn & tn & Hf & Ht & Hch).
  pose proof (Hc (from_ e)) as H1. pose proof (Hc (to_ e)) as H2.
  rewrite Hf in H1. rewrite Ht in H2.
  destruct (nodes' !! from_ e) as [fn'|] eqn:Hf'; [|done].
  destruct (nodes' !! to_ e) as [tn'|] eqn:Ht'; [|done].
  simpl in *. exists fn', tn'. split_and!; [done..|]. congruence.
Qed.

Lemma load_edge_succeeds e edges nodes :
  edges !! edge_key e = None → joins nodes e →
  ∃ nodes1,
    load_edge e (edges, nodes) = inr (<[edge_key e := e]> edges, nodes1)
    ∧ ∀ v, channels <$> nodes1 !! v = channels <$> nodes !! v.
Proof.
  intros Hnew (fn & tn & Hf & Ht & Hch). unfold load_edge, getitem.
  fold (edge_key e). rewrite decide_False by (rewrite Hnew; by intros []).
  rewrite Hf, Ht. simpl. rewrite decide_False by (by intros []).
  eexists. split; [reflexivity|]. intros v.
  destruct (decide (to_ e = v)) as [<-|Hne].
  - rewrite lookup_insert_eq, Ht. by destruct (previous tn).
  - by rewrite lookup_insert_ne.
Qed.

Lemma all_parse_cons {A} root (f : File A) fs :
  all_parse ((root, f) :: fs)
  ↔ (Py.endswith (filename f) ".json" = true → is_Some (json f)) ∧ all_parse fs.
Proof.
  unfold all_parse. split.
  - intros H. split; [apply (H root f); by left|].
    intros r g Hin. apply (H r g). by right.
  - intros [Hf H] r g Hin. apply elem_of_cons in Hin as [[= -> ->]|Hin]; eauto.
Qed.

Lemma load_edges_seq_succeeds fs edges0 nodes0 :
  (∃ st, load_edges_seq fs (edges0, nodes0) = inr st)
  ↔ all_parse fs
    ∧ NoDup (edge_key <$> parsed_edges fs)
    ∧ (∀ k, k ∈ edge_key <$> parsed_edges fs → edges0 !! k = None)
    ∧ Forall (joins nodes0) (parsed_edges fs).
Proof.
  revert edges0 nodes0.
  induction fs as [|[root f] fs IH]; intros edges0 nodes0.
  { simpl. split; [|by eauto]. intros _. split_and!.
    - intros ?? Hin. by apply elem_of_nil in Hin.
    - constructor.
    - intros k Hk. by apply elem_of_nil in Hk.
    - constructor. }
  rewrite all_parse_cons. unfold parsed_edges. rewrite bind_cons.
  fold (parsed_edges fs). cbn -[load_edge]. unfold load_edge_file.
  destruct (Py.endswith (filename f) ".json"); cbn -[load_edge].
  2: { rewrite IH. naive_solver. }
  destruct (json f) as [e|]; cbn -[load_edge].
  2: { split; [by intros [? ?]|]. intros [[H _] _].
       destruct H as [? [=]]; done. }
  rewrite NoDup_cons, Forall_cons. split.
  - intros [st Hst]. apply rbind_inr in Hst as ([edges1 nodes1] & He & Hst).
    apply load_edge_inr in He as (Hnew & -> & fn & tn & Hf & Ht & Hch & ->).
    destruct (proj1 (IH _ _) (ex_intro _ st Hst)) as (Hp & Hnd & Hk & Hj).
    split_and!; [by eauto|done| |done| |by exists fn, tn|].
    + intros Hin. apply Hk in Hin. by rewrite lookup_insert_eq in Hin.
    + intros k [->|Hin]%elem_of_cons; [done|].
      apply Hk in Hin. destruct (decide (edge_key e = k)) as [<-|Hne].
      * by rewrite lookup_insert_eq in Hin.
      * by rewrite lookup_insert_ne in Hin.
    + eapply Forall_impl; [exact Hj|]. intros e'. apply joins_channels.
      intros v. destruct (decide (to_ e = v)) as [<-|Hne].
      * rewrite lookup_insert_eq, Ht. by destruct (previous tn).
      * by rewrite lookup_insert_ne.
  - intros (Hp & [Hnotin Hnd] & Hk & Hje & Hj).
    destruct (load_edge_succeeds e edges0 nodes0) as (nodes1 & -> & Hc);
      [apply Hk; by left|done|]. cbn -[load_edge]. apply IH. split_and!; [by destruct Hp|done| |].
    + intros k Hin. rewrite lookup_insert_ne; [apply Hk; by right|].
      by intros <-.
    + eapply Forall_impl; [exact Hj|]. intros e'. by apply joins_channels.
Qed.

(** X2. [load_edges] returns exactly when every [.json] file of the
    directory parses, no two of the edges have the same [from] and [to],
    and every edge joins two of the given nodes on exactly the channels
    the two nodes share. *)
Theorem load_edges_succeeds_iff
    (directory : Walk Edge) (nodes : gmap string Node) :
  (∃ nodes', load_edges directory nodes = inr nodes')
  ↔ all_parse (walk_files directory)
    ∧ NoDup (edge_key <$> parsed_edges (walk_files directory))
    ∧ Forall (joins nodes) (parsed_edges (walk_files directory)).
Proof.
  rewrite load_edges_unfold. split.
  - intros [nodes' H]. apply rbind_inr in H as (st & H & _).
    destruct (proj1 (load_edges_seq_succeeds _ _ _) (ex_intro _ st H))
      as (? & ? & _ & ?). done.
  - intros (Hp & Hnd & Hj).
    destruct (proj2 (load_edges_seq_succeeds (walk_files directory) ∅ nodes))
      as [st ->]; [|by eexists].
    split_and!; [done..| |done]. intros k _. apply lookup_empty.
Qed.

(** ** Files that are not [.json] files *)

(** The walk without the files whose name does not end in [.json]. *)
Definition json_files {A} (walk : Walk A) : Walk A :=
  (λ d, (d.1, filter (λ f, Py.endswith (filename f) ".json" = true) d.2)) <$> walk.

Lemma load_edges_files_json root files st :
  load_edges_files root files st
  = load_edges_files root
      (filter (λ f, Py.endswith (filename f) ".json" = true) files) st.
Proof.
  revert st. induction files as [|f files IH]; intros st; [done|].
  destruct (Py.endswith (filename f) ".json") eqn:Hjson.
  - rewrite filter_cons_True by done. cbn [load_edges_files].
    destruct (load_edge_file root f st); simpl; [done|]. apply IH.
  - rewrite filter_cons_False by (rewrite Hjson; done).
    cbn [load_edges_files]. unfold load_edge_file at 1. rewrite Hjson. simpl.
    apply IH.
Qed.

Lemma load_nodes_files_json root files nodes :
  load_nodes_files root files nodes
  = load_nodes_files root
      (filter (λ f, Py.endswith (filename f) ".json" = true) files) nodes.
Proof.
  revert nodes. induction files as [|f files IH]; intros nodes; [done|].
  destruct (Py.endswith (filename f) ".json") eqn:Hjson.
  - rewrite filter_cons_True by done. cbn [load_nodes_files].
    destruct (load_node_file root f nodes); simpl; [done|]. apply IH.
  - rewrite filter_cons_False by (rewrite Hjson; done).
    cbn [load_nodes_files]. unfold load_node_file at 1. rewrite Hjson. simpl.
    apply IH.
Qed.

(** X3. Files whose name does not end in [.json] are never read: with or
    without them, whatever they hold, [load_nodes] and [load_edges]
    return the same nodes or raise the same exception. *)
Theorem load_ignores_other_files
    (channels_dir : Walk NodeDoc) (edges_dir : Walk Edge)
    (nodes : gmap string Node) :
  load_nodes channels_dir = load_nodes (json_files channels_dir)
  ∧ load_edges edges_dir nodes = load_edges (json_files edges_dir) nodes.
Proof.
  split.
  - unfold load_nodes. f_equal. generalize (∅ : gmap string Node).
    induction channels_dir as [|[root files] walk IH]; intros nodes0; [done|].
    simpl. rewrite <- load_nodes_files_json.
    destruct (load_nodes_files root files nodes0); simpl; [done|]. apply IH.
  - unfold load_edges. f_equal.
    generalize (∅ : gmap (string * string) Edge, nodes).
    induction edges_dir as [|[root files] walk IH]; intros st; [done|].
    simpl. rewrite <- load_edges_files_json.
    destruct (load_edges_files root files st); simpl; [done|]. apply IH.
Qed.

(** ** When [load_nodes] succeeds *)

(** The path of the first [.json] file that is not a JSON document. *)
Fixpoint first_unparseable {A} (fs : list (string * File A)) : option string :=
  match fs with
  | [] => None
  | (root, f) :: fs' =>
      if Py.endswith (filename f) ".json" then
        match json f with
        | None => Some (Py.path_join root (filename f))
        | Some _ => first_unparseable fs'
        end
      else first_unparseable fs'
  end.

Lemma load_nodes_seq_outcome fs nodes0 :
  match first_unparseable fs with
  | Some path =>
      load_nodes_seq fs nodes0 = raise (ValueError (failed_to_load_JSON path))
  | None => ∃ nodes, load_nodes_seq fs nodes0 = inr nodes
  end.
Proof.
  revert nodes0. induction fs as [|[root f] fs IH]; intros nodes0; simpl.
  { by eexists. }
  unfold load_node_file. destruct (Py.endswith (filename f) ".json"); simpl.
  2: { apply IH. }
  destruct (json f) as [d|]; [|done].
  destruct (nodes0 !! doc_version d); simpl; apply IH.
Qed.

(** X4. On a walk whose [.json] files, when they parse, hold node
    objects (an object with a version and a payload, and a metadata
    object or none, as [NodeDoc] types them), [load_nodes] raises the
    [ValueError] for a file that is not a JSON document, with the joined
    path of the first such [.json] file of the walk, and returns when
    there is none. *)
Theorem load_nodes_outcome (directory : Walk NodeDoc) :
  match first_unparseable (walk_files directory) with
  | Some path =>
      load_nodes directory = raise (ValueError (failed_to_load_JSON path))
  | None => ∃ nodes, load_nodes directory = inr nodes
  end.
Proof.
  unfold load_nodes. rewrite load_nodes_walk_seq.
  pose proof (load_nodes_seq_outcome (walk_files directory) ∅) as H.
  destruct (first_unparseable (walk_files directory)) as [path|].
  - by rewrite H.
  - destruct H as [nodes ->]. simpl. by eexists.
Qed.

Example load_nodes_unparseable_ex :
  load_nodes [("./channels/stable",
               [Ex.node_json "4.1.0";
                {| filename := "README.md"; json := None |};
                {| filename := "4.1.1.json"; json := None |};
                {| filename := "4.1.2.json"; json := None |}])]
  = raise (ValueError (failed_to_load_JSON "./channels/stable/4.1.1.json")).
Proof. vm_compute. reflexivity. Qed.

(** ** Which file a node comes from *)

(** The node [n] of version [v] comes from the first node file of [fs]
    for that version. *)
Definition from_first_file (fs : list (string * File NodeDoc)) (v : string)
    (n : Node) : Prop :=
  ∃ before root f d after,
    fs = before ++ (root, f) :: after
    ∧ node_file f d ∧ doc_version d = v
    ∧ (∀ r g d', (r, g) ∈ before → node_file g d' → doc_version d' ≠ v)
    ∧ version n = v ∧ payload n = doc_payload d
    ∧ metadata n = doc_metadata d ∧ previous n = None.

Definition same_fields (n0 n : Node) : Prop :=
  version n = version n0 ∧ payload n = payload n0
  ∧ metadata n = metadata n0 ∧ previous n = previous n0.

Lemma from_first_file_later root f fs v n :
  (∀ d, node_file f d → doc_version d ≠ v) →
  from_first_file fs v n → from_first_file ((root, f) :: fs) v n.
Proof.
  intros Hf (before & r & g & d & after & -> & Hg & Hv & Hfirst
             & Hn1 & Hn2 & Hn3 & Hn4).
  exists ((root, f) :: before), r, g, d, after. split_and!; try done.
  intros r' g' d' Hin Hg'. apply elem_of_cons in Hin as [[= -> ->]|Hin].
  - by apply Hf.
  - by eapply Hfirst.
Qed.

Lemma load_nodes_seq_first fs nodes0 nodes v n :
  load_nodes_seq fs nodes0 = inr nodes → nodes !! v = Some n →
  (∃ n0, nodes0 !! v = Some n0 ∧ same_fields n0 n)
  ∨ (nodes0 !! v = None ∧ from_first_file fs v n).
Proof.
  revert nodes0. induction fs as [|[root f] fs IH]; intros nodes0 H Hn; simpl in H.
  { injection H as <-. left. exists n. by split. }
  apply rbind_inr in H as (nodesm & Hf & H).
  specialize (IH _ H Hn). clear H Hn. unfold load_node_file in Hf.
  destruct (Py.endswith (filename f) ".json") eqn:Hjson; simpl in Hf.
  2: { injection Hf as <-. destruct IH as [?|[Hnone IH]]; [by left|right].
       split; [done|]. apply from_first_file_later; [|done].
       intros d [Hd _]. congruence. }
  destruct (json f) as [d|] eqn:Hd; [|done].
  assert (node_file f d) as Hfile by done.
  destruct (nodes0 !! doc_version d) as [pn|] eqn:Hpn; injection Hf as <-.
  - destruct (decide (doc_version d = v)) as [<-|Hne].
    + rewrite lookup_insert_eq in IH. left.
      destruct IH as [(n0 & [= <-] & Hs)|[[=] _]]. by exists pn.
    + rewrite lookup_insert_ne in IH by done.
      destruct IH as [?|[Hnone IH]]; [by left|right]. split; [done|].
      apply from_first_file_later; [|done]. intros d' Hd'.
      by rewrite (proj2 Hd') in Hd; injection Hd as ->.
  - destruct (decide (doc_version d = v)) as [<-|Hne].
    + rewrite lookup_insert_eq in IH. right. split; [done|].
      destruct IH as [(n0 & [= <-] & Hv & Hp & Hm & Hprev)|[[=] _]].
      simpl in *. exists [], root, f, d, fs. split_and!; try done.
      intros r g d' Hin. by apply elem_of_nil in Hin.
    + rewrite lookup_insert_ne in IH by done.
      destruct IH as [?|[Hnone IH]]; [by left|right]. split; [done|].
      apply from_first_file_later; [|done]. intros d' Hd'.
      by rewrite (proj2 Hd') in Hd; injection Hd as ->.
Qed.

Lemma load_nodes_seq_dom fs nodes0 nodes v :
  load_nodes_seq fs nodes0 = inr nodes →
  is_Some (nodes !! v)
  ↔ is_Some (nodes0 !! v) ∨ ∃ c, appears_in fs v c.
Proof.
  revert nodes0. induction fs as [|[root f] fs IH]; intros nodes0 H; simpl in H.
  { injection H as <-. split; [by left|]. intros [?|[c Hc]]; [done|].
    destruct Hc as (?&?&?&Hin&_). by apply elem_of_nil in Hin. }
  apply rbind_inr in H as (nodesm & Hf & H). rewrite (IH _ H). clear IH H.
  unfold load_node_file in Hf.
  destruct (Py.endswith (filename f) ".json") eqn:Hjson; simpl in Hf.
  2: { injection Hf as <-. by setoid_rewrite appears_in_cons_skip. }
  destruct (json f) as [d|] eqn:Hd; [|done].
  setoid_rewrite (appears_in_cons_file root f d); [|done].
  assert (is_Some (nodesm !! v)
          ↔ is_Some (nodes0 !! v) ∨ doc_version d = v) as ->.
  { destruct (nodes0 !! doc_version d) as [pn|] eqn:Hpn; injection Hf as <-;
      (destruct (decide (doc_version d = v)) as [<-|Hne];
       [rewrite lookup_insert_eq, Hpn|rewrite lookup_insert_ne by done]);
      naive_solver. }
  naive_solver.
Qed.

(** X5. The nodes [load_nodes] returns are the versions that have a node
    file, each under its own version; the payload and the metadata of a
    node are those of the first file of the walk for its version, the
    metadata with the release-channels entry set and its other entries
    kept, and later files for the version add their channel only; no node
    has predecessors yet. *)
Theorem load_nodes_first_file
    (directory : Walk NodeDoc) (nodes : gmap string Node) :
  load_nodes directory = inr nodes →
  (∀ v, is_Some (nodes !! v) ↔ ∃ c, appears_in (walk_files directory) v c)
  ∧ ∀ v node, nodes !! v = Some node →
      version node = v ∧ previous node = None
      ∧ ∃ before root f d after,
          walk_files directory = before ++ (root, f) :: after
          ∧ node_file f d ∧ doc_version d = v
          ∧ (∀ r g d', (r, g) ∈ before → node_file g d' → doc_version d' ≠ v)
          ∧ payload node = doc_payload d
          ∧ metadata node
            = Some (<[release_channels :=
                        Py.join "," (Py.sorted_set (channels node))]>
                      (default ∅ (doc_metadata d))).
Proof.
  unfold load_nodes. intros H. apply rbind_inr in H as (nodes0 & H & [= <-]).
  rewrite load_nodes_walk_seq in H. split.
  - intros v. rewrite lookup_fmap, fmap_is_Some.
    rewrite (load_nodes_seq_dom _ _ _ v H), lookup_empty.
    split; [|by right]. intros [[? [=]]|?]; done.
  - intros v node Hn. rewrite lookup_fmap in Hn.
    destruct (nodes0 !! v) as [n0|] eqn:Hn0; [|done]. injection Hn as <-.
    destruct (load_nodes_seq_first _ _ _ _ _ H Hn0)
      as [(? & Hl & _)|[_ Hfirst]]; [by rewrite lookup_empty in Hl|].
    destruct Hfirst as (before & root & f & d & after & Hw & Hf & Hv & Hfirst
                        & Hver & Hpay & Hmd & Hprev).
    simpl. split_and!; [done..|].
    exists before, root, f, d, after. split_and!; [done..|].
    unfold add_channels_metadata. simpl. rewrite Hmd.
    by destruct (doc_metadata d).
Qed.

Lemma load_nodes_first_file_witness :
  ∃ node, Ex.nodes !! "4.1.0" = Some node ∧ version node = "4.1.0"
          ∧ previous node = None.
Proof.
  destruct (load_nodes_first_file Ex.channels_dir Ex.nodes) as [_ H].
  - vm_compute. reflexivity.
  - destruct (H "4.1.0" (Ex.node "4.1.0" {[ "stable"; "fast" ]}))
      as (Hv & Hp & _).
    + vm_compute. reflexivity.
    + eexists. split_and!; [vm_compute; reflexivity|exact Hv|exact Hp].
Defined.

(** * Further properties of the registry calls *)

(** ** manifest_uri *)

Lemma split1_no_sep sep s : has_char sep s = false → Py.split1 sep s = [s].
Proof.
  induction s as [|c s IH]; simpl; [done|].
  intros [Hc Hs]%orb_false_iff. rewrite Hc, (IH Hs). done.
Qed.

Lemma split1_append sep x s :
  has_char sep x = false → Py.split1 sep (x +:+ String sep s) = [x; s].
Proof.
  induction x as [|c x IH]; simpl.
  - intros _. by rewrite Ascii.eqb_refl.
  - intros [Hc Hx]%orb_false_iff. rewrite Hc, (IH Hx). done.
Qed.

(** A string with the separator splits at its first occurrence. *)
Lemma has_char_split sep s :
  has_char sep s = true →
  ∃ x y, s = x +:+ String sep y ∧ has_char sep x = false.
Proof.
  induction s as [|c s IH]; simpl; [done|].
  destruct (Ascii.eqb c sep) eqn:Hc; simpl.
  - intros _. apply Ascii.eqb_eq in Hc as ->. by exists "", s.
  - intros Hs. destruct (IH Hs) as (x & y & -> & Hx).
    exists (String c x), y. simpl. by rewrite Hc, Hx.
Qed.

Lemma startswith_app p s : Py.startswith (p +:+ s) p = true.
Proof.
  unfold Py.startswith. induction p as [|c p IH]; [by destruct s|].
  change (String c p +:+ s) with (String c (p +:+ s)). simpl.
  by destruct (ascii_dec c c).
Qed.

(** X6. [manifest_uri] splits the pullspec at its first [@]: without an
    [@] the tuple assignment raises [ValueError]; when the name before
    the [@] does not start with [quay.io/] the pullspec is refused as
    non-Quay; otherwise the URI is the manifest of the digest in the
    repository that follows [quay.io/]. Every pullspec is one of the
    three. *)
Theorem manifest_uri_cases (node : Node) :
  (has_char "@" (payload node) = false →
   manifest_uri node = raise (ValueError not_enough_values_to_unpack))
  ∧ (∀ name digest,
       payload node = name +:+ String "@" digest →
       has_char "@" name = false →
       Py.startswith name "quay.io/" = false →
       manifest_uri node = raise (ValueError (non_Quay_pullspec (payload node))))
  ∧ (∀ repo digest,
       payload node = "quay.io/" +:+ repo +:+ String "@" digest →
       has_char "@" repo = false →
       manifest_uri node
       = ok ("https://quay.io/api/v1/repository/" +:+ repo
             +:+ "/manifest/" +:+ digest))
  ∧ (has_char "@" (payload node) = true →
     ∃ name digest, payload node = name +:+ String "@" digest
                    ∧ has_char "@" name = false).
Proof.
  split_and!.
  - intros H. unfold manifest_uri. by rewrite split1_no_sep.
  - intros name digest Hp Hname Hq. unfold manifest_uri.
    rewrite Hp at 1. rewrite split1_append by done. by rewrite Hq.
  - intros repo digest Hp Hrepo. unfold manifest_uri. rewrite Hp.
    change ("quay.io/" +:+ repo +:+ String "@" digest)
      with (("quay.io/" +:+ repo) +:+ String "@" digest).
    rewrite split1_append by (by simpl). by rewrite startswith_app.
  - apply has_char_split.
Qed.

Lemma manifest_uri_cases_witness :
  manifest_uri (Ex2.node None) = ok Ex2.base.
Proof.
  destruct (manifest_uri_cases (Ex2.node None)) as (_ & _ & H & _).
  apply (H "openshift/release" "sha256:abc"); reflexivity.
Defined.

(** ** get_labels *)

Lemma labels_dict_last ls k :
  labels_dict ls !! k = last (filter (λ l, key l = k) ls).
Proof.
  induction ls as [|l ls IH] using rev_ind; [done|].
  rewrite labels_dict_snoc, filter_app.
  destruct (decide (key l = k)) as [Heq|Hne].
  - rewrite filter_cons_True by done. rewrite filter_nil, last_snoc.
    by rewrite <- Heq, lookup_insert_eq.
  - rewrite filter_cons_False by done. rewrite filter_nil, app_nil_r.
    by rewrite lookup_insert_ne.
Qed.

(** X7. [get_labels] changes nothing and returns a dictionary that maps
    a key to the last label of the list with that key: of two labels
    with one key the later one hides the earlier one, and a key no label
    has is absent. *)
Theorem get_labels_last_wins
    (node : Node) (base : string) (w : World) :
  manifest_uri node = inr base →
  ∃ L, run (get_labels node) w = (ok L, w)
       ∧ (∀ k, L !! k = last (filter (λ l, key l = k) (labels w)))
       ∧ (∀ k l, L !! k = Some l → key l = k ∧ l ∈ labels w)
       ∧ (∀ k, L !! k = None ↔ ∀ l, l ∈ labels w → key l ≠ k).
Proof.
  intros Hbase. exists (labels_dict (labels w)). split_and!.
  - unfold run, get_labels, bind, lift. by rewrite Hbase.
  - intros k. apply labels_dict_last.
  - intros k l. rewrite labels_dict_last. intros Hl.
    apply last_Some_elem_of, list_elem_of_filter in Hl as [? ?]. done.
  - intros k. rewrite labels_dict_last, last_None. split.
    + intros Hnil l Hl Hk.
      by eapply (filter_nil_not_elem_of (λ l, key l = k)).
    + intros Hno. induction (labels w) as [|l ls IH]; [done|].
      rewrite filter_cons_False by (apply Hno; by left).
      apply IH. intros l' Hl'. apply Hno. by right.
Qed.

Lemma get_labels_last_wins_witness :
  ∃ L, run (get_labels (Ex2.node None))
         (Ex2.world [text_label previous_add "1.0.1";
                     text_label previous_add "1.0.2"] [])
       = (ok L, Ex2.world [text_label previous_add "1.0.1";
                           text_label previous_add "1.0.2"] [])
       ∧ L !! previous_add = Some (text_label previous_add "1.0.2").
Proof.
  destruct (get_labels_last_wins (Ex2.node None) Ex2.base
              (Ex2.world [text_label previous_add "1.0.1";
                          text_label previous_add "1.0.2"] []))
    as (L & Hrun & Hlast & _); [reflexivity|].
  exists L. split; [exact Hrun|]. rewrite Hlast. vm_compute. reflexivity.
Defined.

(** ** get_release_metadata *)

Lemma manifest_uri_name node base :
  manifest_uri node = inr base →
  Py.startswith (List.hd "" (Py.split1 "@" (payload node))) "quay.io/" = true.
Proof.
  unfold manifest_uri.
  destruct (Py.split1 "@" (payload node)) as [|name [|digest [|? ?]]]; try done.
  simpl. by destruct (Py.startswith name "quay.io/").
Qed.

(** X8. On a manifest with layers [get_release_metadata] reads the last
    layer of the list and nothing else: it returns the metadata of that
    layer, raises [KeyError] when the layer has no metadata file and
    [ValueError] when the file is not a JSON document, whatever the
    layers before it hold; it changes nothing. *)
Theorem get_release_metadata_last_layer
    (node : Node) (base : string) (w : World)
    (older : list Layer) (newest : Layer) :
  manifest_uri node = inr base →
  layers w = older ++ [newest] →
  run (get_release_metadata node) w
  = (match blob newest !! release_metadata_path with
     | None => raise (KeyError release_metadata_path)
     | Some None => raise (ValueError json_decode_error)
     | Some (Some meta) => ok meta
     end, w).
Proof.
  intros Hbase Hly. unfold run, get_release_metadata, bind, lift.
  rewrite Hbase, Hly, search_layers_newest. unfold read_layer.
  rewrite (manifest_uri_name _ _ Hbase). simpl.
  by destruct (blob newest !! release_metadata_path) as [[meta|]|].
Qed.

Lemma get_release_metadata_last_layer_witness :
  (run (get_release_metadata (Ex2.node None))
     (Ex2.world [] [Ex2.other_layer; Ex2.layer ["1.0.0"]])).1
  = ok {| meta_previous := Some ["1.0.0"] |}.
Proof.
  rewrite (get_release_metadata_last_layer (Ex2.node None) Ex2.base
             (Ex2.world [] [Ex2.other_layer; Ex2.layer ["1.0.0"]])
             [Ex2.other_layer] (Ex2.layer ["1.0.0"]));
    [vm_compute; reflexivity|reflexivity|reflexivity].
Defined.

(** ** The versions a label can hold *)

Lemma split_fields_no_sep sep s :
  Forall (λ v, has_char sep v = false) (Py.split sep s).
Proof.
  induction s as [|c s IH]; simpl; [by repeat constructor|].
  destruct (Ascii.eqb c sep) eqn:Hc.
  - by constructor.
  - destruct (Py.split sep s) as [|w ws].
    { constructor; [simpl; by rewrite Hc|constructor]. }
    apply Forall_cons in IH as [Hw Hws]. constructor; [|done].
    simpl. by rewrite Hc, Hw.
Qed.

Lemma elem_of_parse_versions v x :
  v ∈ parse_versions x → version_ok v = true.
Proof.
  unfold parse_versions, Py.set. rewrite elem_of_list_to_set.
  intros [Ht Hin]%list_elem_of_filter. apply version_ok_spec.
  split; [by apply Is_true_true|].
  by apply (proj1 (Forall_forall _ _) (split_fields_no_sep "," x)).
Qed.

(** X9. A set of versions written into a label, sorted and joined with
    commas, is read back as the same set exactly when none of its
    versions is empty or holds a comma; what is read from a label never
    holds such a version. *)
Theorem label_round_trip (versions : gset string) :
  (parse_versions (Py.join "," (Py.sorted_set versions)) = versions
   ↔ versions_ok versions = true)
  ∧ ∀ value, versions_ok (parse_versions value) = true.
Proof.
  assert (∀ value, versions_ok (parse_versions value) = true) as Hread.
  { intros value. unfold versions_ok. apply forallb_forall. intros v Hv.
    apply list_elem_of_In, elem_of_elements in Hv.
    by apply (elem_of_parse_versions v value). }
  split; [|done]. split.
  - intros <-. apply Hread.
  - apply parse_versions_join.
Qed.

Example label_round_trip_ex :
  parse_versions (Py.join "," (Py.sorted_set {[ "4.1.2"; "4.1.0"; "4.1.1" ]}))
  = {[ "4.1.0"; "4.1.1"; "4.1.2" ]}
  ∧ Py.join "," (Py.sorted_set {[ "4.1.2"; "4.1.0"; "4.1.1" ]})
    = "4.1.0,4.1.1,4.1.2"
  ∧ parse_versions ",4.1.0,,4.1.1," = {[ "4.1.0"; "4.1.1" ]}.
Proof. vm_compute. split_and!; reflexivity. Qed.

(** * Further properties of the reconciler *)

(** The five labels of the graph. *)
Definition graph_labels : list string :=
  [release_channels; next_add; next_remove; previous_remove; previous_add].

(** [B] decides on the label [k] alone. *)
Definition keys_on (k : string) (B : gmap string Label → list action) : Prop :=
  ∀ L, Forall (λ a, action_key a = k) (B L).

Lemma decisions_other_keys bs L k :
  k ∉ bs.*1 → Forall (λ b, keys_on b.1 b.2) bs →
  Forall (λ a, action_key a ≠ k) (decisions bs L).
Proof.
  induction bs as [|[k' B] bs IH]; intros Hk Hbs; [constructor|].
  apply Forall_cons in Hbs as [HB Hbs]. rewrite fmap_cons in Hk.
  apply not_elem_of_cons in Hk as [Hne Hk]. unfold decisions.
  rewrite bind_cons. apply Forall_app. split; [|by apply IH].
  simpl in *. eapply Forall_impl; [apply HB|]. simpl. by intros a ->.
Qed.

Lemma decisions_lookup_keys bs L0 M k B :
  NoDup bs.*1 → Forall (λ b, keys_on b.1 b.2) bs → (k, B) ∈ bs →
  apply_actions (decisions bs L0) M !! k = apply_actions (B L0) M !! k.
Proof.
  revert M. induction bs as [|[k' B'] bs IH]; intros M Hnd Hbs Hin.
  { by apply elem_of_nil in Hin. }
  rewrite fmap_cons in Hnd. apply NoDup_cons in Hnd as [Hk' Hnd].
  pose proof Hbs as Hall. apply Forall_cons in Hbs as [HB' Hbs].
  unfold decisions. rewrite bind_cons, apply_actions_app. simpl in *.
  apply elem_of_cons in Hin as [[= -> ->]|Hin].
  - by apply apply_actions_other, decisions_other_keys.
  - fold (decisions bs L0). rewrite IH by done.
    apply apply_actions_ext, apply_actions_other.
    eapply Forall_impl; [apply HB'|].
    simpl. intros a -> ->. apply Hk'.
    apply (list_elem_of_fmap_2 fst) in Hin. done.
Qed.

Lemma channels_actions_keys desired : keys_on release_channels (channels_actions desired).
Proof.
  intros L. unfold channels_actions.
  destruct (Py.truthy _); [destruct (String.eqb _ _)|]; by repeat constructor.
Qed.

Lemma change_actions_keys label want : keys_on label (change_actions label want).
Proof.
  intros L. unfold change_actions. case_decide; [|constructor].
  apply Forall_app. split; [apply delete_if_present_keys|].
  case_decide; by repeat constructor.
Qed.

Lemma sync_blocks_keys node desired mr :
  NoDup (sync_blocks node desired mr).*1
  ∧ Forall (λ b, keys_on b.1 b.2) (sync_blocks node desired mr)
  ∧ Forall (λ k, k ∈ graph_labels) (sync_blocks node desired mr).*1.
Proof.
  unfold sync_blocks, graph_labels.
  assert (keys_on next_add (λ L, delete_if_present L next_add)) as Hna
    by (intros L; apply delete_if_present_keys).
  assert (keys_on next_remove (λ L, delete_if_present L next_remove)) as Hnr
    by (intros L; apply delete_if_present_keys).
  assert (keys_on previous_add (λ L, delete_if_present L previous_add)) as Hpa
    by (intros L; apply delete_if_present_keys).
  pose proof (channels_actions_keys desired) as Hch.
  pose proof (block_keys _ _ (wildcard_block mr)) as Hw.
  destruct (decide (default ∅ (previous node) ≠ ∅));
    [destruct mr as [e|meta]|]; simpl.
  - split_and!; [compute_done| |].
    + by repeat (apply Forall_cons_2; [simpl|]).
    + by repeat (apply Forall_cons_2; [compute_done|]).
  - split_and!; [compute_done| |].
    + repeat (apply Forall_cons_2; [simpl|]); try done;
        apply change_actions_keys.
    + by repeat (apply Forall_cons_2; [compute_done|]).
  - split_and!; [compute_done| |].
    + by repeat (apply Forall_cons_2; [simpl|]).
    + by repeat (apply Forall_cons_2; [compute_done|]).
Qed.

Lemma sync_plan_keys node L mr :
  Forall (λ a, action_key a ∈ graph_labels) (sync_plan node L mr).1.
Proof.
  destruct (desired_channels node) as [e|desired] eqn:Hd.
  { unfold sync_plan. rewrite Hd. constructor. }
  rewrite (sync_plan_decisions _ _ _ desired) by done.
  destruct (sync_blocks_keys node desired mr) as (_ & Hkeys & Hin).
  unfold decisions. induction (sync_blocks node desired mr) as [|[k B] bs IH];
    [constructor|].
  rewrite fmap_cons in Hin. apply Forall_cons in Hin as [Hk Hin].
  apply Forall_cons in Hkeys as [HB Hkeys]. rewrite bind_cons.
  apply Forall_app. split; [|by apply IH].
  eapply Forall_impl; [apply HB|]. simpl. by intros a ->.
Qed.

(** The labels of the registry after a run with a token, as a
    dictionary: the decisions applied to the labels the run read. *)
Lemma sync_node_labels_after node token t base w :
  bearer token = Some t → manifest_uri node = inr base →
  labels_dict (labels (run (sync_node node token) w).2)
  = apply_actions
      (sync_plan node (labels_dict (labels w)) (search_layers node (layers w))).1
      (labels_dict (labels w)).
Proof.
  intros Ht Hbase. unfold run.
  destruct (sync_node_performs node token base w Hbase) as (w' & -> & _ & Hl & _).
  simpl. rewrite Hl. unfold requests. rewrite Ht. apply labels_dict_apply.
Qed.

Lemma filter_apply_requests (P : Label → Prop) `{∀ l, Decision (P l)}
    base t acts ls :
  Forall (λ a, ∀ l, P l → key l ≠ action_key a) acts →
  filter P (apply_requests (to_request base t <$> acts) ls) = filter P ls.
Proof.
  revert ls. induction acts as [|a acts IH]; intros ls Hacts; [done|].
  apply Forall_cons in Hacts as [Ha Hacts]. unfold apply_requests in *. simpl.
  rewrite IH by done. destruct a as [k|l]; simpl in *.
  - induction ls as [|l ls IHls]; [done|].
    destruct (decide (P l)) as [HP|HP].
    + rewrite (filter_cons_True (λ l, key l ≠ k)) by (by apply Ha).
      rewrite !(filter_cons_True P) by done. by rewrite IHls.
    + rewrite (filter_cons_False P l ls) by done. rewrite <- IHls.
      destruct (decide (key l ≠ k)).
      * rewrite (filter_cons_True (λ l, key l ≠ k)) by done.
        by rewrite (filter_cons_False P) by done.
      * by rewrite (filter_cons_False (λ l, key l ≠ k)) by done.
  - rewrite filter_app, filter_cons_False, filter_nil, app_nil_r; [done|].
    intros HP. by apply (Ha l).
Qed.

(** X10. Whatever the node, the token and the outcome, a run of
    [sync_node] leaves every label whose key is not one of the five
    graph labels in the list of the manifest, in the same order, and
    leaves the layers as they are. *)
Theorem sync_node_other_labels
    (node : Node) (token : option string) (w : World) :
  let w' := (run (sync_node node token) w).2 in
  filter (λ l, key l ∉ graph_labels) (labels w')
  = filter (λ l, key l ∉ graph_labels) (labels w)
  ∧ layers w' = layers w.
Proof.
  simpl. unfold run. destruct (manifest_uri node) as [e|base] eqn:Hbase.
  { by rewrite (sync_node_non_Quay _ _ e). }
  destruct (sync_node_performs node token base w Hbase)
    as (w' & -> & _ & Hl & Hy & _).
  simpl. split; [|done]. rewrite Hl. unfold requests.
  destruct (bearer token) as [t|]; [|done].
  apply filter_apply_requests.
  eapply Forall_impl; [apply sync_plan_keys|].
  simpl. intros a Ha l Hl' Heq. apply Hl'. by rewrite Heq.
Qed.

Example sync_node_other_labels_ex :
  labels (run (sync_node (Ex2.node None) (Some "token"))
            (Ex2.world [text_label "vendor" "Red Hat";
                        text_label next_add "1.0.4";
                        text_label "vendor" "again"] [])).2
  = [text_label "vendor" "Red Hat"; text_label "vendor" "again";
     text_label release_channels "stable"].
Proof. vm_compute. reflexivity. Qed.

(** ** The labels after a run *)

(** What a run with a token makes of the label a block decides on. *)
Lemma sync_node_label_after node token t base desired w k B :
  bearer token = Some t → manifest_uri node = inr base →
  desired_channels node = inr desired →
  (k, B) ∈ sync_blocks node desired (search_layers node (layers w)) →
  labels_dict (labels (run (sync_node node token) w).2) !! k
  = apply_actions (B (labels_dict (labels w))) (labels_dict (labels w)) !! k.
Proof.
  intros Ht Hbase Hd Hin.
  rewrite (sync_node_labels_after _ _ t base) by done.
  rewrite (sync_plan_decisions _ _ _ desired) by done.
  destruct (sync_blocks_keys node desired (search_layers node (layers w)))
    as (Hnd & Hkeys & _).
  by apply decisions_lookup_keys.
Qed.

Lemma sync_blocks_first node desired mr :
  (release_channels, channels_actions desired) ∈ sync_blocks node desired mr
  ∧ (next_add, λ L, delete_if_present L next_add) ∈ sync_blocks node desired mr
  ∧ (next_remove, λ L, delete_if_present L next_remove)
    ∈ sync_blocks node desired mr.
Proof.
  unfold sync_blocks. split_and!; apply elem_of_app; left.
  - by left.
  - right. by left.
  - right. right. by left.
Qed.



Lemma channels_actions_result desired L :
  ∃ l, apply_actions (channels_actions desired L) L !! release_channels = Some l
       ∧ value l = desired.
Proof.
  unfold channels_actions, label_value.
  destruct (L !! release_channels) as [l|] eqn:Hl; simpl.
  - destruct (Py.truthy (value l)); simpl.
    + destruct (String.eqb (value l) desired) eqn:Heq; simpl.
      * exists l. split; [done|]. by apply String.eqb_eq.
      * rewrite lookup_insert_eq. by eexists.
    + rewrite lookup_insert_eq. by eexists.
  - rewrite lookup_insert_eq. by eexists.
Qed.









(** ** When [sync_node] raises *)


Example sync_node_outcome_ex :
  (run (sync_node (Ex2.node None) (Some "token"))
     (Ex2.world [text_label previous_remove "*"] [])).1 = ok tt
  ∧ (run (sync_node (Ex2.node None) (Some "token")) (Ex2.world [] [])).1
    = raise (ValueError (no_release_metadata "1.0.3"))
  ∧ (run (sync_node (Ex2.node (Some {[ "1.0.1" ]})) (Some "token"))
       (Ex2.world [text_label previous_remove "*"] [Ex2.other_layer])).1
    = raise (KeyError release_metadata_path).
Proof. vm_compute. split_and!; reflexivity. Qed.

(** * push *)

(** The registry for [push]: the labels and the layers of every manifest,
    by manifest URI, what was printed, and the requests received that
    change it. *)
Record Quay := {
  manifests : string → list Label * list Layer;
  printed_lines : list printed;
  received : list request;
}.

(** The world of [sync_node] for the manifest at [uri]. *)
Definition manifest_world (q : Quay) (uri : string) : World :=
  {| labels := (manifests q uri).1; layers := (manifests q uri).2;
     stdout := printed_lines q; sent := received q |}.

Definition with_manifest (q : Quay) (uri : string) (w : World) : Quay :=
  {| manifests := λ u, if String.eqb u uri then (labels w, layers w)
                       else manifests q u;
     printed_lines := stdout w; received := sent w |}.

(** [sync_node(node=node, token=token)] against the registry: every
    request of [sync_node] goes to the manifest of the node, and a node
    without a manifest URI reaches none. *)
Definition sync_node_at (node : Node) (token : option string) (q : Quay)
    : result unit * Quay :=
  match manifest_uri node with
  | inl e => (inl e, q)
  | inr uri =>
      let out := run (sync_node node token) (manifest_world q uri) in
      (out.1, with_manifest q uri out.2)
  end.

(** [for node in nodes.values(): sync_node(node=node, token=token)] *)
Fixpoint sync_nodes (values : list Node) (token : option string) (q : Quay)
    : result unit * Quay :=
  match values with
  | [] => (ok tt, q)
  | node :: values' =>
      match sync_node_at node token q with
      | (inl e, q') => (inl e, q')
      | (inr _, q') => sync_nodes values' token q'
      end
  end.

(** The keys of the dictionary [load_nodes] builds, in the order they
    were inserted (the order of [nodes.values()] since Python 3.7). *)
Definition inserted (fs : list (string * File NodeDoc)) : list string :=
  foldl (λ keys rf,
           if Py.endswith (filename rf.2) ".json" then
             match json rf.2 with
             | Some d => if decide (doc_version d ∈ keys) then keys
                         else keys ++ [doc_version d]
             | None => keys
             end
           else keys) [] fs.

Definition push (channels_dir : Walk NodeDoc) (edges_dir : Walk Edge)
    (token : option string) (q : Quay) : result unit * Quay :=
  match load_nodes channels_dir with
  | inl e => (inl e, q)
  | inr nodes =>
      match load_edges edges_dir nodes with
      | inl e => (inl e, q)
      | inr nodes =>
          sync_nodes (omap (λ v, nodes !! v) (inserted (walk_files channels_dir)))
            token q
      end
  end.

Lemma sync_node_at_other node token q u :
  manifest_uri node ≠ inr u →
  manifests (sync_node_at node token q).2 u = manifests q u.
Proof.
  intros Hu. unfold sync_node_at.
  destruct (manifest_uri node) as [e|uri]; [done|]. simpl.
  destruct (String.eqb u uri) eqn:Heq; [|done].
  apply String.eqb_eq in Heq as ->. done.
Qed.

Lemma sync_node_at_dry_run node token q :
  bearer token = None →
  received (sync_node_at node token q).2 = received q
  ∧ ∀ u, manifests (sync_node_at node token q).2 u = manifests q u.
Proof.
  intros Hdry. unfold sync_node_at.
  destruct (manifest_uri node) as [e|uri] eqn:Hbase; [done|]. unfold run.
  destruct (sync_node_performs node token uri (manifest_world q uri) Hbase)
    as (w' & -> & Hs & Hl & Hy & _).
  rewrite requests_dry_run in Hs, Hl by done. rewrite app_nil_r in Hs.
  simpl in *. split; [done|]. intros u.
  destruct (String.eqb u uri) eqn:Heq; [|done].
  apply String.eqb_eq in Heq as ->. rewrite Hl, Hy.
  by destruct (manifests q uri).
Qed.

(** X16. In a dry run [push] sends nothing and leaves the labels and the
    layers of every manifest as they are, whatever the directories hold;
    and when [load_nodes] or [load_edges] raises, [push] raises that
    error with nothing printed, sent or changed, with or without a
    token. *)
Theorem push_dry_run
    (channels_dir : Walk NodeDoc) (edges_dir : Walk Edge)
    (token : option string) (q : Quay) :
  (bearer token = None →
   received (push channels_dir edges_dir token q).2 = received q
   ∧ ∀ u, manifests (push channels_dir edges_dir token q).2 u = manifests q u)
  ∧ (∀ e, load_nodes channels_dir = inl e →
       push channels_dir edges_dir token q = (inl e, q))
  ∧ (∀ nodes e, load_nodes channels_dir = inr nodes →
       load_edges edges_dir nodes = inl e →
       push channels_dir edges_dir token q = (inl e, q)).
Proof.
  split_and!.
  - intros Hdry. unfold push.
    destruct (load_nodes channels_dir) as [e|nodes]; [done|].
    destruct (load_edges edges_dir nodes) as [e|nodes']; [done|].
    generalize (omap (λ v, nodes' !! v) (inserted (walk_files channels_dir))).
    intros values. revert q. induction values as [|node values IH]; intros q;
      [done|].
    simpl. destruct (sync_node_at_dry_run node token q Hdry) as [Hr Hm].
    destruct (sync_node_at node token q) as [[e|[]] q1]; simpl in *; [done|].
    destruct (IH q1) as [Hr' Hm']. split; [congruence|].
    intros u. by rewrite Hm', Hm.
  - intros e He. unfold push. by rewrite He.
  - intros nodes e Hn He. unfold push. by rewrite Hn, He.
Qed.

Module Ex3.

Definition quay : Quay :=
  {| manifests := λ u, ([text_label next_add "4.1.2"], [Ex2.layer []]);
     printed_lines := []; received := [] |}.

End Ex3.

Lemma push_dry_run_witness :
  received (push Ex.channels_dir [("./edges", [Ex.edge_json "a.json" Ex.upgrade])]
              None Ex3.quay).2 = []
  ∧ (push Ex.channels_dir [("./edges", [Ex.edge_json "a.json" Ex.upgrade])]
       None Ex3.quay).1 = ok tt.
Proof.
  destruct (push_dry_run Ex.channels_dir
              [("./edges", [Ex.edge_json "a.json" Ex.upgrade])] None Ex3.quay)
    as (H & _).
  destruct H as [Hr _]; [reflexivity|].
  split; [exact Hr|]. vm_compute. reflexivity.
Defined.

Example push_ex :
  received (push Ex.channels_dir [("./edges", [Ex.edge_json "a.json" Ex.upgrade])]
              (Some "token") Ex3.quay).2
  = [POST "https://quay.io/api/v1/repository/openshift/release/manifest/sha256:4.1.0/labels"
       (text_label release_channels "fast,stable") "token";
     DELETE "https://quay.io/api/v1/repository/openshift/release/manifest/sha256:4.1.0/labels/io.openshift.upgrades.graph.next.add"
       next_add "token";
     POST "https://quay.io/api/v1/repository/openshift/release/manifest/sha256:4.1.1/labels"
       (text_label release_channels "fast") "token";
     DELETE "https://quay.io/api/v1/repository/openshift/release/manifest/sha256:4.1.1/labels/io.openshift.upgrades.graph.next.add"
       next_add "token";
     POST "https://quay.io/api/v1/repository/openshift/release/manifest/sha256:4.1.1/labels"
       (text_label previous_add "4.1.0") "token"].
Proof. vm_compute. reflexivity. Qed.

Lemma sync_nodes_app before after token q :
  sync_nodes (before ++ after) token q
  = match sync_nodes before token q with
    | (inl e, q1) => (inl e, q1)
    | (inr _, q1) => sync_nodes after token q1
    end.
Proof.
  revert q. induction before as [|node before IH]; intros q; simpl; [done|].
  destruct (sync_node_at node token q) as [[e|[]] q1]; [done|]. apply IH.
Qed.

Lemma sync_node_at_received node token q :
  ∃ more, received (sync_node_at node token q).2 = received q ++ more.
Proof.
  unfold sync_node_at. destruct (manifest_uri node) as [e|uri] eqn:Hbase.
  { exists []. by rewrite app_nil_r. }
  unfold run.
  destruct (sync_node_performs node token uri (manifest_world q uri) Hbase)
    as (w' & -> & Hs & _).
  simpl. eexists. exact Hs.
Qed.

Lemma sync_nodes_other values token q u :
  (∀ n, n ∈ values → manifest_uri n ≠ inr u) →
  manifests (sync_nodes values token q).2 u = manifests q u.
Proof.
  revert q. induction values as [|node values IH]; intros q Hu; [done|].
  simpl. pose proof (sync_node_at_other node token q u) as Hn.
  destruct (sync_node_at node token q) as [[e|[]] q1]; simpl in *.
  - apply Hn, Hu. by left.
  - rewrite IH by (intros n Hin; apply Hu; by right). apply Hn, Hu. by left.
Qed.

(** X17. The loop of [push] stops at the first node whose [sync_node]
    raises: the exception is the outcome, the nodes after it are not
    synced, the requests already received stay received, and a manifest
    of none of the nodes up to that one is what it was. *)
Theorem sync_nodes_stops
    (before after : list Node) (node : Node) (token : option string)
    (q q1 : Quay) (e : exn) :
  sync_nodes before token q = (ok tt, q1) →
  (sync_node_at node token q1).1 = inl e →
  let out := sync_nodes (before ++ node :: after) token q in
  out = (inl e, (sync_node_at node token q1).2)
  ∧ (∃ more, received out.2 = received q1 ++ more)
  ∧ ∀ u, (∀ n, n ∈ before ++ [node] → manifest_uri n ≠ inr u) →
         manifests out.2 u = manifests q u.
Proof.
  intros Hb He out.
  assert (out = (inl e, (sync_node_at node token q1).2)) as Hout.
  { subst out. rewrite sync_nodes_app, Hb. simpl.
    destruct (sync_node_at node token q1) as [[e'|[]] q2]; simpl in *;
      congruence. }
  rewrite Hout. simpl. split_and!; [done|apply sync_node_at_received|].
  intros u Hu. rewrite sync_node_at_other by (apply Hu, elem_of_app; right; by left).
  replace q1 with (sync_nodes before token q).2 by (by rewrite Hb).
  apply sync_nodes_other. intros n Hn. apply Hu, elem_of_app. by left.
Qed.

Lemma sync_nodes_stops_witness :
  (sync_nodes [Ex2.node None; Ex2.node (Some {[ "1.0.1" ]}); Ex2.node None]
     (Some "token")
     {| manifests := λ u, ([text_label previous_remove "*"], []);
        printed_lines := []; received := [] |}).1
  = raise (ValueError (no_release_metadata "1.0.3")).
Proof.
  destruct (sync_nodes_stops [Ex2.node None] [Ex2.node None]
              (Ex2.node (Some {[ "1.0.1" ]})) (Some "token")
              {| manifests := λ u, ([text_label previous_remove "*"], []);
                 printed_lines := []; received := [] |}
              (sync_nodes [Ex2.node None] (Some "token")
                 {| manifests := λ u, ([text_label previous_remove "*"], []);
                    printed_lines := []; received := [] |}).2
              (ValueError (no_release_metadata "1.0.3"))) as (H & _).
  - vm_compute. reflexivity.
  - vm_compute. reflexivity.
  - exact (f_equal fst H).
Defined.

(** X18. After a loop of [push] that returns, run with a token over
    nodes with pairwise different manifest URIs, the manifest of every
    node holds the desired channels string of that node in its
    [release.channels] label and has no [next.add] and no [next.remove]
    label. *)
Theorem sync_nodes_labels
    (values : list Node) (token : option string) (t : string) (q q' : Quay)
    (node : Node) (uri desired : string) :
  bearer token = Some t →
  NoDup (manifest_uri <$> values) →
  sync_nodes values token q = (ok tt, q') →
  node ∈ values →
  manifest_uri node = inr uri →
  desired_channels node = inr desired →
  let L' := labels_dict (manifests q' uri).1 in
  (∃ l, L' !! release_channels = Some l ∧ value l = desired)
  ∧ L' !! next_add = None ∧ L' !! next_remove = None.
Proof.
  intros Ht Hnd Hrun Hin Hbase Hd.
  apply list_elem_of_split in Hin as (before & after & ->).
  rewrite fmap_app, fmap_cons in Hnd.
  apply NoDup_app in Hnd as (_ & _ & Hnd). apply NoDup_cons in Hnd as [Hafter _].
  rewrite sync_nodes_app in Hrun.
  destruct (sync_nodes before token q) as [[e|[]] q1]; [done|].
  simpl in Hrun.
  destruct (sync_node_at node token q1) as [[e|[]] q2] eqn:Hnode; [done|].
  assert (manifests q' uri = manifests q2 uri) as ->.
  { replace q' with (sync_nodes after token q2).2 by (by rewrite Hrun).
    apply sync_nodes_other. intros n Hn Hu. apply Hafter.
    rewrite Hbase, <- Hu. apply list_elem_of_fmap. eauto. }
  unfold sync_node_at in Hnode. rewrite Hbase in Hnode.
  injection Hnode as _ <-. simpl. rewrite String.eqb_refl. simpl.
  destruct (sync_blocks_first node desired
              (search_layers node (layers (manifest_world q1 uri))))
    as (Hch & Hna & Hnr).
  rewrite (sync_node_label_after _ _ t uri desired _ _ _ Ht Hbase Hd Hch).
  rewrite (sync_node_label_after _ _ t uri desired _ _ _ Ht Hbase Hd Hna).
  rewrite (sync_node_label_after _ _ t uri desired _ _ _ Ht Hbase Hd Hnr).
  split_and!; [apply channels_actions_result|
               apply lookup_apply_delete_if_present..].
Qed.

Lemma sync_nodes_labels_witness :
  let values := [Ex.node "4.1.0" {[ "stable"; "fast" ]}; Ex.node "4.1.1" {[ "fast" ]}] in
  let q' := (sync_nodes values (Some "token") Ex3.quay).2 in
  ∃ l, labels_dict
         (manifests q'
            "https://quay.io/api/v1/repository/openshift/release/manifest/sha256:4.1.0").1
       !! release_channels = Some l
       ∧ value l = "fast,stable".
Proof.
  intros values q'.
  destruct (sync_nodes_labels values (Some "token") "token" Ex3.quay q'
              (Ex.node "4.1.0" {[ "stable"; "fast" ]})
              "https://quay.io/api/v1/repository/openshift/release/manifest/sha256:4.1.0"
              "fast,stable") as (H & _).
  - reflexivity.
  - vm_compute. repeat constructor; vm_compute; intros Hin;
      repeat (apply elem_of_cons in Hin as [Hin|Hin]; [discriminate|]);
      by apply elem_of_nil in Hin.
  - vm_compute. reflexivity.
  - by left.
  - reflexivity.
  - vm_compute. reflexivity.
  - exact H.
Defined.

(** ** Pushing twice *)

(** The labels a run with a token leaves are such that a second reading
    decides nothing. *)
Lemma sync_plan_converged node token t base w :
  bearer token = Some t → manifest_uri node = inr base →
  (∀ desired, desired_channels node = inr desired → desired ≠ "") →
  versions_ok (written_versions node (layers w)) = true →
  let w1 := (run (sync_node node token) w).2 in
  (sync_plan node (labels_dict (labels w1)) (search_layers node (layers w1))).1
  = [].
Proof.
  intros Ht Hbase Hdesired Hok. simpl. unfold run.
  destruct (sync_node_performs node token base w Hbase)
    as (w1 & -> & _ & Hl1 & Hy1 & _).
  simpl. rewrite Hy1, Hl1. unfold requests. rewrite Ht, labels_dict_apply.
  destruct (desired_channels node) as [e|desired] eqn:Hd.
  - unfold sync_plan. by rewrite Hd.
  - rewrite !(sync_plan_decisions _ _ _ desired) by done.
    destruct (sync_blocks_converge node desired (layers w))
      as [Hnd Hbs]; [by apply Hdesired|done|].
    by apply decisions_converge.
Qed.

(** Nothing is left to decide for the node on its manifest. *)
Definition converged (q : Quay) (node : Node) : Prop :=
  ∀ uri, manifest_uri node = inr uri →
    (sync_plan node (labels_dict (manifests q uri).1)
       (search_layers node (manifests q uri).2)).1 = [].

Lemma sync_node_at_converged node token q :
  converged q node →
  received (sync_node_at node token q).2 = received q
  ∧ ∀ u, manifests (sync_node_at node token q).2 u = manifests q u.
Proof.
  intros Hconv. unfold sync_node_at.
  destruct (manifest_uri node) as [e|uri] eqn:Hbase; [done|]. unfold run.
  destruct (sync_node_performs node token uri (manifest_world q uri) Hbase)
    as (w' & -> & Hs & Hl & Hy & _).
  simpl in Hs, Hl, Hy. rewrite (Hconv uri Hbase), requests_nil in Hs, Hl.
  rewrite app_nil_r in Hs. simpl in *. split; [done|]. intros u.
  destruct (String.eqb u uri) eqn:Heq; [|done].
  apply String.eqb_eq in Heq as ->. rewrite Hl, Hy.
  by destruct (manifests q uri).
Qed.

Lemma converged_ext q q' node :
  (∀ u, manifests q' u = manifests q u) → converged q node → converged q' node.
Proof. intros Hm Hc uri Hu. rewrite Hm. by apply Hc. Qed.

Lemma sync_nodes_converged values token q :
  (∀ node, node ∈ values → converged q node) →
  received (sync_nodes values token q).2 = received q
  ∧ ∀ u, manifests (sync_nodes values token q).2 u = manifests q u.
Proof.
  revert q. induction values as [|node values IH]; intros q Hconv; [done|].
  simpl. destruct (sync_node_at_converged node token q) as [Hr Hm];
    [apply Hconv; by left|].
  destruct (sync_node_at node token q) as [[e|[]] q1]; simpl in *; [done|].
  destruct (IH q1) as [Hr' Hm'].
  { intros n Hn. apply (converged_ext q); [done|]. apply Hconv. by right. }
  split; [congruence|]. intros u. by rewrite Hm', Hm.
Qed.

Lemma sync_node_at_layers node token q u :
  (manifests (sync_node_at node token q).2 u).2 = (manifests q u).2.
Proof.
  unfold sync_node_at. destruct (manifest_uri node) as [e|uri] eqn:Hbase; [done|].
  unfold run.
  destruct (sync_node_performs node token uri (manifest_world q uri) Hbase)
    as (w' & -> & _ & _ & Hy & _).
  simpl. destruct (String.eqb u uri) eqn:Heq; [|done].
  apply String.eqb_eq in Heq as ->. done.
Qed.

Lemma sync_nodes_layers values token q u :
  (manifests (sync_nodes values token q).2 u).2 = (manifests q u).2.
Proof.
  revert q. induction values as [|node values IH]; intros q; [done|].
  simpl. pose proof (sync_node_at_layers node token q u) as Hn.
  destruct (sync_node_at node token q) as [[e|[]] q1]; simpl in *; [done|].
  by rewrite IH.
Qed.

(** X19. A second run of the loop of [push] with the token, on the
    registry a first run that returned has left, sends nothing and
    changes no label, when the nodes have pairwise different manifest
    URIs, their desired channels strings are not empty and the versions
    the first run writes into [previous.remove] and [previous.add] are
    not empty and hold no comma. *)
Theorem sync_nodes_twice
    (values : list Node) (token : option string) (t : string) (q q' : Quay) :
  bearer token = Some t →
  NoDup (manifest_uri <$> values) →
  (∀ node desired, node ∈ values →
     desired_channels node = inr desired → desired ≠ "") →
  (∀ node uri, node ∈ values → manifest_uri node = inr uri →
     versions_ok (written_versions node (manifests q uri).2) = true) →
  sync_nodes values token q = (ok tt, q') →
  received (sync_nodes values token q').2 = received q'
  ∧ ∀ u, manifests (sync_nodes values token q').2 u = manifests q' u.
Proof.
  intros Ht Hnd Hdesired Hok Hrun. apply sync_nodes_converged.
  intros node Hin uri Hbase.
  pose proof (Hdesired node) as Hdes. pose proof (Hok node uri Hin Hbase) as Hv.
  assert (node ∈ values) as Hin' by done.
  apply list_elem_of_split in Hin as (before & after & ->).
  rewrite fmap_app, fmap_cons in Hnd.
  apply NoDup_app in Hnd as (_ & _ & Hnd). apply NoDup_cons in Hnd as [Hafter _].
  rewrite sync_nodes_app in Hrun.
  destruct (sync_nodes before token q) as [[e|[]] q1] eqn:Hbefore; [done|].
  simpl in Hrun.
  destruct (sync_node_at node token q1) as [[e|[]] q2] eqn:Hnode; [done|].
  assert (manifests q' uri = manifests q2 uri) as ->.
  { replace q' with (sync_nodes after token q2).2 by (by rewrite Hrun).
    apply sync_nodes_other. intros n Hn Hu. apply Hafter.
    rewrite Hbase, <- Hu. apply list_elem_of_fmap. eauto. }
  unfold sync_node_at in Hnode. rewrite Hbase in Hnode.
  injection Hnode as _ <-. simpl. rewrite String.eqb_refl. simpl.
  apply (sync_plan_converged node token t uri (manifest_world q1 uri));
    [done|done|by eauto|].
  simpl. replace q1 with (sync_nodes before token q).2 by (by rewrite Hbefore).
  by rewrite sync_nodes_layers.
Qed.

Lemma sync_nodes_twice_witness :
  let values := [Ex.node "4.1.0" {[ "stable"; "fast" ]}; Ex.node "4.1.1" {[ "fast" ]}] in
  let q' := (sync_nodes values (Some "token") Ex3.quay).2 in
  received q' ≠ []
  ∧ received (sync_nodes values (Some "token") q').2 = received q'.
Proof.
  intros values q'. split; [vm_compute; discriminate|].
  destruct (sync_nodes_twice values (Some "token") "token" Ex3.quay q') as [H _].
  - reflexivity.
  - vm_compute. repeat constructor; vm_compute; intros Hin;
      repeat (apply elem_of_cons in Hin as [Hin|Hin]; [discriminate|]);
      by apply elem_of_nil in Hin.
  - intros node desired Hin Hd.
    repeat (apply elem_of_cons in Hin as [->|Hin];
            [vm_compute in Hd; injection Hd as <-; discriminate|]).
    by apply elem_of_nil in Hin.
  - intros node uri Hin _.
    repeat (apply elem_of_cons in Hin as [->|Hin]; [vm_compute; reflexivity|]).
    by apply elem_of_nil in Hin.
  - vm_compute. reflexivity.
  - exact H.
Defined.
